(** * pymorphy2: the analysis engine of [pymorphy2/analyzer.py]

    A shallow embedding of [Dictionary], [Parse] and [MorphAnalyzer]
    and the properties of the paradigm reconstruction, of the dictionary
    lookup and of the unit pipeline. *)

From Stdlib Require Import ZArith QArith Lia.
From stdpp Require Import base option list gmap strings.
From stdpp Require Import sorting.

Local Open Scope Z_scope.

(** ** Python values *)

(** A unicode string is a sequence of code points, so that [len] counts
    letters. *)
Definition char := N.
Definition str := list char.

(** The two letters of the replace table built in [Dictionary.__init__]. *)
Definition cyr_ie : char := 1077%N.  (* U+0435 *)
Definition cyr_io : char := 1105%N.  (* U+0451 *)

Fixpoint of_ascii (s : string) : str :=
  match s with
  | EmptyString => []
  | String c s' => Ascii.N_of_ascii c :: of_ascii s'
  end.

(** Exceptions raised by the modelled code. [ValueError] is what the
    tag class raises for a grammeme it does not know. [UnknownObject] is
    the boundary of the model: a method called on an object that is
    neither the analyzer's dictionary nor one of its units. *)
Inductive exn := IndexError | AssertionError | ValueError | UnknownObject.

Inductive result (A : Type) :=
| Ok (a : A)
| Raise (e : exn).
Arguments Ok {A} a.
Arguments Raise {A} e.

#[export] Instance result_ret : MRet result := fun A a => Ok a.
#[export] Instance result_bind : MBind result := fun A B f m =>
  match m with
  | Ok a => f a
  | Raise e => Raise e
  end.

Definition py_len {A} (l : list A) : Z := Z.of_nat (length l).

(** [l[i]]: a negative index counts from the end; out of range raises. *)
Definition py_index {A} (l : list A) (i : Z) : result A :=
  let j := if i <? 0 then py_len l + i else i in
  if (0 <=? j) && (j <? py_len l)
  then match l !! Z.to_nat j with
       | Some x => Ok x
       | None => Raise IndexError
       end
  else Raise IndexError.

(** A slice bound: negative bounds count from the end, and every bound
    is clipped to [0 .. len]. *)
Definition slice_bound (n i : Z) : Z :=
  if i <? 0 then Z.max 0 (n + i) else Z.min i n.

(** [l[start:stop]] *)
Definition py_slice {A} (l : list A) (start stop : Z) : list A :=
  let a := slice_bound (py_len l) start in
  let b := slice_bound (py_len l) stop in
  drop (Z.to_nat a) (take (Z.to_nat b) l).

(** [l[start:]] *)
Definition py_slice_from {A} (l : list A) (start : Z) : list A :=
  drop (Z.to_nat (slice_bound (py_len l) start)) l.

(** [if s:] on a sequence *)
Definition truthy {A} (l : list A) : bool :=
  match l with
  | [] => false
  | _ :: _ => true
  end.

(** ** Tags *)

(** Modelled from the spec: the tag class, which lives in another module
    ([pymorphy2.tagset]). The analyzer uses its [grammemes] attribute and
    its [updated_grammemes] method, which is kept as the method the
    object carries. The method is a call into that class and can raise:
    the class raises [ValueError] for a grammeme it does not know. *)
Record Tag := mkTag {
  tag_repr : string;
  grammemes : gset string;
  updated_grammemes : gset string → result (gset string)
}.

(** ** The lexicon store *)

(** Modelled from the spec: the fuzzy lexicon store ([self.words], a DAWG
    of another package) and its replace table. The store maps a key to the
    [(para_id, idx)] pairs attached to it; an exact query applies no
    substitution, a similar query returns the stored spellings reachable
    by replacing zero or more letters as the table allows. The order of
    the similar spellings is the order of [variants]. *)
Definition replaces := gmap char char.

Definition compile_replaces (m : list (char * char)) : replaces :=
  list_to_map m.

Fixpoint variants (repl : replaces) (w : str) : list str :=
  match w with
  | [] => [[]]
  | c :: w' =>
      let rest := variants repl w' in
      map (cons c) rest ++
      match repl !! c with
      | Some c' => map (cons c') rest
      | None => []
      end
  end.

Definition lexicon := gmap str (list (Z * Z)).

Definition contains (words : lexicon) (w : str) : bool :=
  bool_decide (is_Some (words !! w)).

Definition similar_items (words : lexicon) (w : str) (repl : replaces)
  : list (str * list (Z * Z)) :=
  omap (fun k => pair k <$> words !! k) (variants repl w).

Definition similar_keys (words : lexicon) (w : str) (repl : replaces)
  : list str :=
  (similar_items words w repl).*1.

Definition similar_item_values (words : lexicon) (w : str) (repl : replaces)
  : list (list (Z * Z)) :=
  (similar_items words w repl).*2.

(** ** Parse records *)

(** The producing component of a derivation step is an object reference;
    [is] compares the identities. *)
Inductive component :=
| Dict_obj (id : N)
| Unit_obj (id : N).

#[export] Instance component_eq_dec : EqDecision component.
Proof. solve_decision. Defined.

Abbreviation methods_t := (list (component * str)).

(** The 7-field tuple
    [(word, tag, normal_form, para_id, idx, estimate, methods)]. *)
Record form := mkForm {
  word : str;
  tag : Tag;
  normal_form : str;
  para_id : Z;
  idx : Z;
  estimate : Q;
  methods : methods_t
}.

(** ** Dictionary *)

Record Dictionary := mkDictionary {
  dict_id : N;
  paradigms : list (list Z);
  gramtab : list Tag;
  paradigm_prefixes : list str;
  suffixes : list str;
  words : lexicon
}.

(** [self.ee = self.words.compile_replaces({'е': 'ё'})] *)
Definition ee (d : Dictionary) : replaces :=
  compile_replaces [(cyr_ie, cyr_io)].

Definition build_tag_info (d : Dictionary) (para_id idx : Z) : result Tag :=
  paradigm ← py_index (paradigms d) para_id;
  let tag_info_offset := py_len paradigm / 3 in
  tag_id ← py_index paradigm (tag_info_offset + idx);
  py_index (gramtab d) tag_id.

(** The prefix and the suffix of a slot, read as [build_stem] and
    [build_paradigm_info] read them. *)
Definition slot_prefix (d : Dictionary) (paradigm : list Z) (idx : Z)
  : result str :=
  let paradigm_len := py_len paradigm / 3 in
  prefix_id ← py_index paradigm (paradigm_len * 2 + idx);
  py_index (paradigm_prefixes d) prefix_id.

Definition slot_suffix (d : Dictionary) (paradigm : list Z) (idx : Z)
  : result str :=
  suffix_id ← py_index paradigm idx;
  py_index (suffixes d) suffix_id.

Fixpoint paradigm_info_loop (d : Dictionary) (para_id : Z)
    (paradigm : list Z) (range : list Z)
  : result (list (str * Tag * str)) :=
  match range with
  | [] => Ok []
  | idx :: range' =>
      prefix ← slot_prefix d paradigm idx;
      suffix ← slot_suffix d paradigm idx;
      tag ← build_tag_info d para_id idx;
      res ← paradigm_info_loop d para_id paradigm range';
      Ok ((prefix, tag, suffix) :: res)
  end.

Definition build_paradigm_info (d : Dictionary) (para_id : Z)
  : result (list (str * Tag * str)) :=
  paradigm ← py_index (paradigms d) para_id;
  let paradigm_len := py_len paradigm / 3 in
  paradigm_info_loop d para_id paradigm (seqZ 0 paradigm_len).

Definition build_stem (d : Dictionary) (paradigm : list Z) (idx : Z)
    (fixed_word : str) : result str :=
  prefix ← slot_prefix d paradigm idx;
  suffix ← slot_suffix d paradigm idx;
  if truthy suffix
  then Ok (py_slice fixed_word (py_len prefix) (- py_len suffix))
  else Ok (py_slice_from fixed_word (py_len prefix)).

Definition build_normal_form (d : Dictionary) (para_id idx : Z)
    (fixed_word : str) : result str :=
  if idx =? 0 then Ok fixed_word
  else
    paradigm ← py_index (paradigms d) para_id;
    let paradigm_len := py_len paradigm / 3 in
    stem ← build_stem d paradigm idx fixed_word;
    normal_prefix_id ← py_index paradigm (paradigm_len * 2 + 0);
    normal_suffix_id ← py_index paradigm 0;
    normal_prefix ← py_index (paradigm_prefixes d) normal_prefix_id;
    normal_suffix ← py_index (suffixes d) normal_suffix_id;
    Ok (normal_prefix ++ stem ++ normal_suffix).

(** The loop of [Dictionary.parse] over the [(para_id, idx)] pairs of one
    corrected spelling; [res] and [para_normal_forms] are the two objects
    the call mutates. *)
Fixpoint parse_values (d : Dictionary) (fixed_word : str)
    (parses : list (Z * Z)) (res : list form)
    (para_normal_forms : gmap Z str)
  : result (list form * gmap Z str) :=
  match parses with
  | [] => Ok (res, para_normal_forms)
  | (para_id, idx) :: parses' =>
      '(normal_form, para_normal_forms') ←
        match para_normal_forms !! para_id with
        | None =>
            normal_form ← build_normal_form d para_id idx fixed_word;
            Ok (normal_form, <[para_id := normal_form]> para_normal_forms)
        | Some normal_form => Ok (normal_form, para_normal_forms)
        end;
      tag ← build_tag_info d para_id idx;
      let parse := mkForm fixed_word tag normal_form para_id idx 1%Q
                          [(Dict_obj (dict_id d), fixed_word)] in
      parse_values d fixed_word parses' (res ++ [parse]) para_normal_forms'
  end.

Fixpoint parse_items (d : Dictionary) (para_data : list (str * list (Z * Z)))
    (res : list form) (para_normal_forms : gmap Z str)
  : result (list form * gmap Z str) :=
  match para_data with
  | [] => Ok (res, para_normal_forms)
  | (fixed_word, parses) :: para_data' =>
      '(res', para_normal_forms') ←
        parse_values d fixed_word parses res para_normal_forms;
      parse_items d para_data' res' para_normal_forms'
  end.

Definition Dictionary_parse (d : Dictionary) (word : str)
  : result (list form) :=
  let res := [] in
  let para_normal_forms := ∅ in
  let para_data := similar_items (words d) word (ee d) in
  '(res', _) ← parse_items d para_data res para_normal_forms;
  Ok res'.

Fixpoint tag_values (d : Dictionary) (parse : list (Z * Z))
    (result_ : list Tag) : result (list Tag) :=
  match parse with
  | [] => Ok result_
  | (para_id, idx) :: parse' =>
      paradigm ← py_index (paradigms d) para_id;
      let paradigm_len := py_len paradigm / 3 in
      tag_id ← py_index paradigm (paradigm_len + idx);
      tag ← py_index (gramtab d) tag_id;
      tag_values d parse' (result_ ++ [tag])
  end.

Fixpoint tag_items (d : Dictionary) (para_data : list (list (Z * Z)))
    (result_ : list Tag) : result (list Tag) :=
  match para_data with
  | [] => Ok result_
  | parse :: para_data' =>
      result' ← tag_values d parse result_;
      tag_items d para_data' result'
  end.

Definition Dictionary_tag (d : Dictionary) (word : str) : result (list Tag) :=
  let para_data := similar_item_values (words d) word (ee d) in
  tag_items d para_data [].

(** [methods[0][0] is self], for a non-empty [methods]. *)
Definition first_is (c : component) (methods : methods_t) : bool :=
  match methods with
  | [] => true
  | (c0, _) :: _ => bool_decide (c0 = c)
  end.

Definition Dictionary_get_lexeme (d : Dictionary) (form_ : form)
    (methods_ : methods_t) : result (list form) :=
  if negb (first_is (Dict_obj (dict_id d)) methods_) then Raise AssertionError
  else
    let '(mkForm fixed_word tag normal_form para_id idx estimate methods) :=
      form_ in
    paradigm ← py_index (paradigms d) para_id;
    stem ← build_stem d paradigm idx fixed_word;
    info ← build_paradigm_info d para_id;
    Ok (imap (fun index '(_prefix, _tag, _suffix) =>
                let word := _prefix ++ stem ++ _suffix in
                mkForm word _tag normal_form para_id (Z.of_nat index)
                       estimate methods)
             info).

Definition Dictionary_normalized (d : Dictionary) (form_ : form)
  : result form :=
  let '(mkForm fixed_word tag normal_form para_id idx estimate methods) :=
    form_ in
  if idx =? 0 then Ok form_
  else
    tag ← build_tag_info d para_id 0;
    Ok (mkForm normal_form tag normal_form para_id 0 estimate methods).

Definition Dictionary_word_is_known (d : Dictionary) (word : str)
    (strict_ee : bool) : bool :=
  if strict_ee then contains (words d) word
  else truthy (similar_keys (words d) word (ee d)).

(** ** Python's [max] as [heapq.nlargest(1, ...)] uses it *)

(** [max(it, key=key)] keeps the first of the maximal elements. *)
Fixpoint py_max_from {A} (key : A → nat) (best : A) (l : list A) : A :=
  match l with
  | [] => best
  | x :: l' => py_max_from key (if (key best <? key x)%nat then x else best) l'
  end.

(** [heapq.nlargest(1, l, key=key)] *)
Definition nlargest1 {A} (key : A → nat) (l : list A) : list A :=
  match l with
  | [] => []
  | x :: l' => [py_max_from key x l']
  end.

(** ** Results handed to the caller *)

(** A result is a plain tuple, or an instance of the [Parse] subclass
    that the analyzer creates for itself; both unpack to the same tuple. *)
Inductive record :=
| Tuple (f : form)
| ParseObj (f : form).

Definition as_tuple (r : record) : form :=
  match r with
  | Tuple f => f
  | ParseObj f => f
  end.

Inductive result_class := Parse.

(** ** MorphAnalyzer *)

(** One call of a unit in the loop of [parse] or [tag]: the position of
    the unit in [_units] and what it returned. *)
Abbreviation call A := (nat * list A)%type.

Section Analyzer.

(** The elements that the units put into the [seen] set. *)
Context {K : Type} `{Countable K}.

(** An analyzer unit: an object of a class of [pymorphy2.units], known
    by what the analyzer calls on it. *)
Record Unit := mkUnit {
  unit_id : N;
  terminal : bool;
  unit_parse : str → gset K → list form * gset K;
  unit_tag : str → gset K → list Tag * gset K;
  unit_get_lexeme : form → methods_t → result (list form);
  unit_normalized : form → result form
}.

Record MorphAnalyzer := mkMorphAnalyzer {
  dictionary : Dictionary;
  _result_type : option result_class;
  _units : list Unit
}.

(** [self._result_type] applied to the fields of [p], or [p] itself
    when there is no result type. *)
Definition wrap (a : MorphAnalyzer) (p : form) : record :=
  match _result_type a with
  | None => Tuple p
  | Some Parse => ParseObj p
  end.

(** The loop [for unit in self._units] of [parse] and of [tag]; [op] is
    [unit.parse] or [unit.tag]. [res] and [seen] are the mutated
    objects; [pos] and [calls] record which units were called. *)
Fixpoint run_units {A} (op : Unit → str → gset K → list A * gset K)
    (units : list Unit) (word : str) (res : list A) (seen : gset K)
    (pos : nat) (calls : list (call A))
  : list A * gset K * list (call A) :=
  match units with
  | [] => (res, seen, calls)
  | unit :: units' =>
      let '(out, seen') := op unit word seen in
      let res' := res ++ out in
      let calls' := calls ++ [(pos, out)] in
      if truthy res' && terminal unit
      then (res', seen', calls')
      else run_units op units' word res' seen' (S pos) calls'
  end.

Definition parse_run (a : MorphAnalyzer) (word : str)
  : result (list record * list (call form)) :=
  res ← Dictionary_parse (dictionary a) word;
  let '(res', calls) :=
    if negb (truthy res)
    then
      let seen := ∅ in
      let '(res', _, calls) :=
        run_units unit_parse (_units a) word res seen 0 [] in
      (res', calls)
    else (res, [])
  in
  Ok (map (wrap a) res', calls).

Definition tag_run (a : MorphAnalyzer) (word : str)
  : result (list Tag * list (call Tag)) :=
  res ← Dictionary_tag (dictionary a) word;
  if negb (truthy res)
  then
    let seen := ∅ in
    let '(res', _, calls) :=
      run_units unit_tag (_units a) word res seen 0 [] in
    Ok (res', calls)
  else Ok (res, []).

Definition MorphAnalyzer_parse (a : MorphAnalyzer) (word : str)
  : result (list record) :=
  '(res, _) ← parse_run a word; Ok res.

Definition MorphAnalyzer_tag (a : MorphAnalyzer) (word : str)
  : result (list Tag) :=
  '(res, _) ← tag_run a word; Ok res.

(** The units called by [parse] and by [tag], in the order of the
    calls. *)
Definition parse_calls (a : MorphAnalyzer) (word : str)
  : result (list (call form)) :=
  '(_, calls) ← parse_run a word; Ok calls.

Definition tag_calls (a : MorphAnalyzer) (word : str)
  : result (list (call Tag)) :=
  '(_, calls) ← tag_run a word; Ok calls.

(** The object a derivation step names, found among the objects of the
    analyzer. *)
Inductive object :=
| TheDictionary (d : Dictionary)
| AUnit (u : Unit).

Definition resolve (a : MorphAnalyzer) (c : component) : result object :=
  match c with
  | Dict_obj i =>
      if bool_decide (i = dict_id (dictionary a))
      then Ok (TheDictionary (dictionary a))
      else Raise UnknownObject
  | Unit_obj i =>
      match find (fun u => bool_decide (unit_id u = i)) (_units a) with
      | Some u => Ok (AUnit u)
      | None => Raise UnknownObject
      end
  end.

Definition object_get_lexeme (o : object) (form_ : form)
    (methods_ : methods_t) : result (list form) :=
  match o with
  | TheDictionary d => Dictionary_get_lexeme d form_ methods_
  | AUnit u => unit_get_lexeme u form_ methods_
  end.

Definition object_normalized (o : object) (form_ : form) : result form :=
  match o with
  | TheDictionary d => Dictionary_normalized d form_
  | AUnit u => unit_normalized u form_
  end.

Definition MorphAnalyzer_get_lexeme (a : MorphAnalyzer) (form_ : form)
  : result (list record) :=
  let methods_ := methods form_ in
  last_step ← py_index methods_ (-1);
  o ← resolve a last_step.1;
  result_ ← object_get_lexeme o form_ methods_;
  Ok (map (wrap a) result_).

Definition similarity (grammemes_ : gset string) (f : record) : nat :=
  let tag_ := tag (as_tuple f) in
  size (grammemes_ ∩ grammemes tag_).

Definition MorphAnalyzer__inflect (a : MorphAnalyzer) (form_ : form)
    (required_grammemes : gset string) : result (list record) :=
  grammemes_ ← updated_grammemes (tag form_) required_grammemes;
  lexeme ← MorphAnalyzer_get_lexeme a form_;
  let possible_results :=
    filter (fun f => required_grammemes ⊆ grammemes (tag (as_tuple f)))
           lexeme in
  Ok (nlargest1 (similarity grammemes_) possible_results).

(** The methods of a [Parse] object; [_morph] and [_dict] are the
    analyzer that made the class and its dictionary. *)
Definition Parse_inflect (_morph : MorphAnalyzer) (self : form)
    (required_grammemes : gset string) : result (option record) :=
  res ← MorphAnalyzer__inflect _morph self required_grammemes;
  Ok (match res with
      | [] => None
      | r :: _ => Some r
      end).

Definition Parse_normalized (_morph : MorphAnalyzer) (self : form)
  : result record :=
  last_step ← py_index (methods self) (-1);
  o ← resolve _morph last_step.1;
  p ← object_normalized o self;
  Ok (ParseObj p).

Definition MorphAnalyzer_word_is_known (a : MorphAnalyzer) (word : str)
    (strict_ee : bool) : bool :=
  Dictionary_word_is_known (dictionary a) word strict_ee.

End Analyzer.

(** ** The specification's words, for comparison with the code *)

(** The stem as the specification words it: the word without the first
    [len(prefix)] and the last [len(suffix)] letters. *)
Definition strip (prefix suffix w : str) : str :=
  drop (length prefix) (take (length w - length suffix) w).

(** A confusable-letter variant of [w]: every letter is kept or replaced
    as the table allows. *)
Definition variant_of (repl : replaces) (w v : str) : Prop :=
  Forall2 (fun c c' => c' = c ∨ repl !! c = Some c') w v.

(** ** A small dictionary *)

(** A tag class with four grammemes and one category, the number. As
    the tag class does, [updated_grammemes] raises [ValueError] for a
    grammeme that the class does not know. *)
Definition known_grammemes : gset string :=
  {["NOUN"; "VERB"; "sing"; "plur"]}.

Definition number_override (own required : gset string)
  : result (gset string) :=
  if bool_decide (required ⊆ known_grammemes)
  then Ok ((if bool_decide (required ∩ {["sing"; "plur"]} = ∅) then own
            else own ∖ {["sing"; "plur"]}) ∪ required)
  else Raise ValueError.

Definition NOUN_SG : Tag :=
  mkTag "NOUN,sing" {["NOUN"; "sing"]} (number_override {["NOUN"; "sing"]}).
Definition NOUN_PL : Tag :=
  mkTag "NOUN,plur" {["NOUN"; "plur"]} (number_override {["NOUN"; "plur"]}).

Definition kniga : str := [1082; 1085; 1080; 1075; 1072]%N.
Definition knigi : str := [1082; 1085; 1080; 1075; 1080]%N.
Definition yolka : str := [cyr_io; 1083; 1082; 1072]%N.
Definition elka : str := [cyr_ie; 1083; 1082; 1072]%N.

(** One paradigm of two slots, with the suffixes U+0430 and U+0438 and
    an empty prefix. *)
Definition book_paradigm : list Z := [0; 1; 0; 1; 0; 0].

Definition book_dict (words : lexicon) : Dictionary :=
  mkDictionary 1 [book_paradigm] [NOUN_SG; NOUN_PL] [[]]
               [[1072%N]; [1080%N]] words.

Definition kniga_dict : Dictionary := book_dict {[ kniga := [(0, 0)] ]}.
Definition knigi_dict : Dictionary := book_dict {[ knigi := [(0, 1)] ]}.
Definition yolka_dict : Dictionary := book_dict {[ yolka := [(0, 0)] ]}.

Definition kniga_form : form :=
  mkForm kniga NOUN_SG kniga 0 0 1%Q [(Dict_obj 1, kniga)].
Definition knigi_form : form :=
  mkForm knigi NOUN_PL kniga 0 1 1%Q [(Dict_obj 1, knigi)].

(** ** Loop invariants *)

(** What the loops of [Dictionary.parse] keep true of [res] and of
    [para_normal_forms]: every record made so far was made by this
    dictionary with estimate 1, and carries the normal form stored for
    its paradigm. *)
Definition parse_inv (d : Dictionary) (res : list form)
    (para_normal_forms : gmap Z str) : Prop :=
  ∀ f, f ∈ res →
    para_normal_forms !! para_id f = Some (normal_form f) ∧
    estimate f = 1%Q ∧
    methods f = [(Dict_obj (dict_id d), word f)] ∧
    build_tag_info d (para_id f) (idx f) = Ok (tag f).

(** ** A word at two slots of one paradigm *)

(** Three slots with the suffixes U+0430, U+0438, U+0438; the word is
    stored at the slots 1 and 2. *)
Definition book_paradigm3 : list Z := [0; 1; 1; 0; 0; 1; 0; 0; 0].

Definition knigi3_dict : Dictionary :=
  mkDictionary 1 [book_paradigm3] [NOUN_SG; NOUN_PL] [[]]
               [[1072%N]; [1080%N]] {[ knigi := [(0, 1); (0, 2)] ]}.

Definition knigi_gen : form :=
  mkForm knigi NOUN_SG kniga 0 1 1%Q [(Dict_obj 1, knigi)].
Definition knigi_plur : form :=
  mkForm knigi NOUN_PL kniga 0 2 1%Q [(Dict_obj 1, knigi)].

(** ** Analyzers over the small dictionaries *)

(** The example units put numbers into [seen]. *)
Definition knigi_analyzer : MorphAnalyzer (K:=N) :=
  mkMorphAnalyzer knigi_dict (Some Parse) [].
Definition kniga_analyzer : MorphAnalyzer (K:=N) :=
  mkMorphAnalyzer kniga_dict (Some Parse) [].

(** What [build_paradigm_info] reads for the slot [j]. *)
Definition slot_info (d : Dictionary) (para_id : Z) (paradigm : list Z)
    (j : Z) (pts : str * Tag * str) : Prop :=
  slot_prefix d paradigm j = Ok pts.1.1 ∧
  build_tag_info d para_id j = Ok pts.1.2 ∧
  slot_suffix d paradigm j = Ok pts.2.

(** ** A record of another component *)

(** A record whose only derivation step names a unit, not the
    dictionary. *)
Definition foreign_form : form :=
  mkForm knigi NOUN_PL kniga 0 1 1%Q [(Unit_obj 7, knigi)].

(** The record [r] with another derivation chain. *)
Definition set_methods (ms : methods_t) (r : form) : form :=
  mkForm (word r) (tag r) (normal_form r) (para_id r) (idx r) (estimate r) ms.

(** A computation that raises nothing but [IndexError]. *)
Definition only_IndexError {A} (m : result A) : Prop :=
  ∀ e, m = Raise e → e = IndexError.

(** ** The rules of the unit loop *)

Section PipelineRules.

Context {K : Type} `{Countable K} {A : Type}.

(** The accumulated results after the call number [k]. *)
Definition results_through (calls : list (call A)) (k : nat) : list A :=
  concat (take (S k) calls).*2.

(** The units are called in the order of the sequence, each at most
    once, and the first unit is always called. *)
Definition called_in_order (units : list (Unit (K:=K)))
    (calls : list (call A)) : Prop :=
  (∀ k c, calls !! k = Some c → c.1 = k ∧ is_Some (units !! k)) ∧
  (units ≠ [] → calls ≠ []).

(** The rule of the code: the unit after the call number [k] is called
    unless the unit called was terminal and the results accumulated
    through that call are not empty. *)
Definition stops_on_accumulator (units : list (Unit (K:=K)))
    (calls : list (call A)) : Prop :=
  ∀ k c u, calls !! k = Some c → units !! k = Some u →
    (is_Some (calls !! S k) ↔
     is_Some (units !! S k) ∧
     ¬ (terminal u = true ∧ results_through calls k ≠ [])).

(** The rule as the specification words it: the unit after the call
    number [k] is called unless the unit called was terminal and
    returned a result itself. *)
Definition stops_on_own_output (units : list (Unit (K:=K)))
    (calls : list (call A)) : Prop :=
  ∀ k c u, calls !! k = Some c → units !! k = Some u →
    (is_Some (calls !! S k) ↔
     is_Some (units !! S k) ∧ ¬ (terminal u = true ∧ c.2 ≠ [])).

(** No unit is called after a terminal unit that returned a result. *)
Definition stops_after_terminal_output (units : list (Unit (K:=K)))
    (calls : list (call A)) : Prop :=
  ∀ k c u, calls !! k = Some c → units !! k = Some u →
    terminal u = true → c.2 ≠ [] → length calls = S k.

End PipelineRules.

(** ** Example units *)

(** A unit that guesses one parse for every word, and a unit that
    recognises nothing. *)
Definition guess (id : N) (w : str) : form :=
  mkForm w NOUN_SG w 0 0 (1 # 2) [(Unit_obj id, w)].

Definition guessing_unit (id : N) (is_terminal : bool) : Unit (K:=N) :=
  mkUnit id is_terminal
         (fun w seen => ([guess id w], seen ∪ {[id]}))
         (fun w seen => ([NOUN_SG], seen ∪ {[id]}))
         (fun f ms => Ok [f])
         (fun f => Ok f).

Definition silent_unit (id : N) (is_terminal : bool) : Unit (K:=N) :=
  mkUnit id is_terminal
         (fun w seen => ([], seen))
         (fun w seen => ([], seen))
         (fun f ms => Ok [f])
         (fun f => Ok f).

(** A non-terminal unit with a result, then a terminal unit without. *)
Definition late_terminal_analyzer : MorphAnalyzer (K:=N) :=
  mkMorphAnalyzer (book_dict ∅) (Some Parse)
    [guessing_unit 10 false; silent_unit 11 true; guessing_unit 12 false].

(** A non-terminal unit without a result, then a terminal unit with. *)
Definition terminal_analyzer : MorphAnalyzer (K:=N) :=
  mkMorphAnalyzer (book_dict ∅) (Some Parse)
    [silent_unit 10 false; guessing_unit 11 true; guessing_unit 12 false].

(** ** The other methods of the analyzer and of [Parse] *)

(** The loop of [MorphAnalyzer.normal_forms]: [seen] and [result] are
    the two objects it mutates. *)
Fixpoint normal_forms_loop (parses : list record) (seen : gset str)
    (result_ : list str) : list str :=
  match parses with
  | [] => result_
  | p :: parses' =>
      let normal_form := normal_form (as_tuple p) in
      if bool_decide (normal_form ∈ seen)
      then normal_forms_loop parses' seen result_
      else normal_forms_loop parses' (seen ∪ {[normal_form]})
                             (result_ ++ [normal_form])
  end.

Section AnalyzerAccessors.

Context {K : Type} `{Countable K}.

Definition MorphAnalyzer_normal_forms (a : MorphAnalyzer (K:=K)) (word : str)
  : result (list str) :=
  parses ← MorphAnalyzer_parse a word;
  Ok (normal_forms_loop parses ∅ []).

(** The properties of a [Parse] object. *)
Definition Parse_lexeme (_morph : MorphAnalyzer (K:=K)) (self : form)
  : result (list record) :=
  MorphAnalyzer_get_lexeme _morph self.

Definition Parse_is_known (_dict : Dictionary) (self : form) : bool :=
  Dictionary_word_is_known _dict (word self) true.

Definition Parse_paradigm (_dict : Dictionary) (self : form)
  : result (list (str * Tag * str)) :=
  build_paradigm_info _dict (para_id self).

End AnalyzerAccessors.

(** The [(word, (para_id, idx))] pairs of a lookup, in the order in
    which [Dictionary.parse] meets them. *)
Definition lookup_pairs (para_data : list (str * list (Z * Z)))
  : list (str * (Z * Z)) :=
  concat (map (fun item => map (pair item.1) item.2) para_data).

Definition locator (r : form) : str * (Z * Z) :=
  (word r, (para_id r, idx r)).

(** What the loops of [Dictionary.parse] keep true of the stored normal
    forms: a paradigm has a stored normal form only when a record of it
    was made, and the first record of a paradigm carries the normal form
    built from its own word and slot. *)
Definition memo_inv (d : Dictionary) (res : list form)
    (para_normal_forms : gmap Z str) : Prop :=
  (∀ pid, is_Some (para_normal_forms !! pid) →
          ∃ r, r ∈ res ∧ para_id r = pid) ∧
  (∀ i r, res !! i = Some r →
          (∀ j r', (j < i)%nat → res !! j = Some r' →
                   para_id r' ≠ para_id r) →
          build_normal_form d (para_id r) (idx r) (word r)
          = Ok (normal_form r)).

(** ** Analyzers for the word at two slots *)

Definition knigi3_analyzer : MorphAnalyzer (K:=N) :=
  mkMorphAnalyzer knigi3_dict (Some Parse) [].

(** ** Analyzers whose units are all consulted *)

Definition silent_analyzer : MorphAnalyzer (K:=N) :=
  mkMorphAnalyzer (book_dict ∅) (Some Parse)
    [silent_unit 10 true; silent_unit 11 false; silent_unit 12 true].

Definition guessing_analyzer : MorphAnalyzer (K:=N) :=
  mkMorphAnalyzer (book_dict ∅) (Some Parse)
    [guessing_unit 10 false; silent_unit 11 false; guessing_unit 12 false].

(** ** The records of a lexeme *)

(** The list that [Dictionary.get_lexeme] builds from the stem and the
    paradigm of a record. *)
Definition lexeme_records (r : form) (stem : str)
    (info : list (str * Tag * str)) : list form :=
  imap (fun index pts =>
          mkForm (pts.1.1 ++ stem ++ pts.2) pts.1.2 (normal_form r)
                 (para_id r) (Z.of_nat index) (estimate r) (methods r))
       info.

(** The plural form in the lexeme of [kniga_form]. *)
Definition knigi_of_kniga : form :=
  mkForm knigi NOUN_PL kniga 0 1 1%Q [(Dict_obj 1, kniga)].

(** ** Records with unusual derivation chains *)

(** A record without derivation steps, and one whose chain starts with
    a unit and ends with the dictionary. *)
Definition chainless_form : form :=
  mkForm kniga NOUN_SG kniga 0 0 1%Q [].
Definition mixed_chain_form : form :=
  mkForm kniga NOUN_SG kniga 0 0 1%Q [(Unit_obj 7, kniga); (Dict_obj 1, kniga)].

(** ** Iteration over the known words *)

(** Modelled from the spec: [self.words.iteritems(prefix)], the stored
    [(word, (para_id, idx))] items whose word starts with the prefix, in
    the lexicographic order of the words. *)
Fixpoint str_leb (a b : str) : bool :=
  match a, b with
  | [], _ => true
  | _ :: _, [] => false
  | x :: a', y :: b' =>
      if (x <? y)%N then true
      else if (x =? y)%N then str_leb a' b'
      else false
  end.

Definition key_le (x y : str * list (Z * Z)) : Prop := str_leb x.1 y.1.

#[export] Instance key_le_dec : RelDecision key_le.
Proof. intros x y. unfold key_le. apply _. Defined.

Definition iteritems (words : lexicon) (prefix_ : str)
  : list (str * (Z * Z)) :=
  lookup_pairs
    (merge_sort key_le
       (filter (fun item => prefix_ `prefix_of` item.1) (map_to_list words))).

(** A generator is known by the records it yields and by the exception
    that ends it, if one does. *)
Fixpoint iter_parses (d : Dictionary) (items : list (str * (Z * Z)))
  : list form * option exn :=
  match items with
  | [] => ([], None)
  | (word, (para_id, idx)) :: items' =>
      match (tag ← build_tag_info d para_id idx;
             normal_form ← build_normal_form d para_id idx word;
             Ok (mkForm word tag normal_form para_id idx 1%Q
                        [(Dict_obj (dict_id d), word)])) with
      | Ok parse =>
          let '(rest, e) := iter_parses d items' in (parse :: rest, e)
      | Raise e => ([], Some e)
      end
  end.

Definition Dictionary_iter_known_word_parses (d : Dictionary) (prefix_ : str)
  : list form * option exn :=
  iter_parses d (iteritems (words d) prefix_).

Section IterKnownWords.

Context {K : Type} `{Countable K}.

Definition MorphAnalyzer_iter_known_word_parses (a : MorphAnalyzer (K:=K))
    (prefix_ : str) : list record * option exn :=
  let '(known_parses, e) :=
    Dictionary_iter_known_word_parses (dictionary a) prefix_ in
  (map (wrap a) known_parses, e).

End IterKnownWords.

(** Two words in one lexicon. *)
Definition two_words_dict : Dictionary :=
  book_dict {[ knigi := [(0, 1)]; kniga := [(0, 0)] ]}.

Definition two_words_analyzer : MorphAnalyzer (K:=N) :=
  mkMorphAnalyzer two_words_dict (Some Parse) [].

(** * Properties *)

(** ** The error monad *)

Lemma bind_Ok {A B} (m : result A) (f : A → result B) b :
  m ≫= f = Ok b ↔ ∃ a, m = Ok a ∧ f a = Ok b.
Proof.
  destruct m as [a|e]; simpl; split.
  - intros Hf. by exists a.
  - by intros (a' & [= ->] & Hf).
  - discriminate.
  - by intros (a' & [=] & _).
Qed.

Lemma bind_Raise {A B} (m : result A) (f : A → result B) e :
  m ≫= f = Raise e ↔ m = Raise e ∨ ∃ a, m = Ok a ∧ f a = Raise e.
Proof.
  destruct m as [a|e']; simpl; split.
  - intros Hf. right. by exists a.
  - by intros [[=] | (a' & [= ->] & Hf)].
  - intros [= ->]. by left.
  - by intros [[= ->] | (a' & [=] & _)].
Qed.

(** Inverts a hypothesis [m ≫= f = Ok b]. *)
Ltac bind_inv H :=
  let a := fresh "a" in
  let Ha := fresh "Ha" in
  apply bind_Ok in H as (a & Ha & H); simpl in H.

(** ** Slices *)

Lemma py_slice_strip {A} (w p s : list A) :
  truthy s = true →
  py_slice w (py_len p) (- py_len s)
  = drop (length p) (take (length w - length s) w).
Proof.
  intros Hs. destruct s as [|c s]; [done|].
  unfold py_slice, slice_bound, py_len. cbn [length].
  destruct (Z.ltb_spec (Z.of_nat (length p)) 0) as [?|_]; [lia|].
  destruct (Z.ltb_spec (- Z.of_nat (S (length s))) 0) as [_|?]; [|lia].
  replace (Z.to_nat (Z.max 0 (Z.of_nat (length w) + - Z.of_nat (S (length s)))))
    with (length w - S (length s))%nat by lia.
  destruct (decide (length p ≤ length w)%nat) as [Hle|Hgt].
  - f_equal. lia.
  - rewrite !drop_ge; [done| |]; rewrite length_take; lia.
Qed.

Lemma py_slice_from_strip {A} (w p s : list A) :
  truthy s = false →
  py_slice_from w (py_len p)
  = drop (length p) (take (length w - length s) w).
Proof.
  intros Hs. destruct s; [|done]. cbn [length].
  rewrite Nat.sub_0_r, firstn_all.
  unfold py_slice_from, slice_bound, py_len.
  destruct (Z.ltb_spec (Z.of_nat (length p)) 0) as [?|_]; [lia|].
  destruct (decide (length p ≤ length w)%nat) as [Hle|Hgt].
  - f_equal. lia.
  - rewrite !drop_ge; [done| |]; lia.
Qed.

Lemma strip_app (p st s : str) : strip p s (p ++ st ++ s) = st.
Proof.
  unfold strip. rewrite !length_app.
  replace (length p + (length st + length s) - length s)%nat
    with (length p + length st)%nat by lia.
  rewrite take_app_add', take_app_length by done.
  by rewrite drop_app_length.
Qed.

Lemma strip_empty_suffix (p w : str) : strip p [] w = drop (length p) w.
Proof. unfold strip. cbn [length]. by rewrite Nat.sub_0_r, firstn_all. Qed.

(** ** The stem and the normal form *)

(** [build_stem] slices by the two lengths, whatever the word is. *)
Lemma build_stem_strip d paradigm idx w :
  build_stem d paradigm idx w
  = (prefix ← slot_prefix d paradigm idx;
     suffix ← slot_suffix d paradigm idx;
     Ok (strip prefix suffix w)).
Proof.
  unfold build_stem.
  destruct (slot_prefix d paradigm idx) as [p|e]; [|done]. simpl.
  destruct (slot_suffix d paradigm idx) as [s|e]; [|done]. simpl.
  destruct (truthy s) eqn:Hs.
  - by rewrite py_slice_strip.
  - by rewrite (py_slice_from_strip _ _ s).
Qed.

(** C2, as the claim states it, fails: the word [""] is shorter than the
    suffix of slot 1 of the book paradigm and does not end with it, and
    [build_stem] returns the empty stem instead of failing. *)
Lemma build_stem_accepts_short_word :
  slot_prefix kniga_dict book_paradigm 1 = Ok [] ∧
  slot_suffix kniga_dict book_paradigm 1 = Ok [1080%N] ∧
  (length (@nil char) < length (@nil char) + length [1080%N])%nat ∧
  (¬ ∃ st : str, [] = [] ++ st ++ [1080%N]) ∧
  build_stem kniga_dict book_paradigm 1 [] = Ok [].
Proof.
  repeat split; try reflexivity.
  - simpl. lia.
  - intros [st Hst]. by destruct st.
Qed.

(** C2, amended: [build_stem] never fails on account of the word. When
    the prefix and the suffix of the slot can be read it returns the word
    sliced by their two lengths, for every word; it raises exactly the
    error of the table lookups when they fail; and on a word that is
    prefix + stem + suffix it returns the stem. *)
Theorem build_stem_never_rejects_word d paradigm idx w :
  (∀ p s,
     slot_prefix d paradigm idx = Ok p →
     slot_suffix d paradigm idx = Ok s →
     build_stem d paradigm idx w
     = Ok (drop (length p) (take (length w - length s) w)) ∧
     ∀ st, w = p ++ st ++ s → build_stem d paradigm idx w = Ok st) ∧
  (∀ e,
     build_stem d paradigm idx w = Raise e ↔
     slot_prefix d paradigm idx = Raise e ∨
     ∃ p, slot_prefix d paradigm idx = Ok p ∧
          slot_suffix d paradigm idx = Raise e).
Proof.
  rewrite build_stem_strip. split.
  - intros p s -> ->. simpl. split; [done|].
    intros st ->. by rewrite strip_app.
  - intros e. rewrite bind_Raise. split.
    + intros [?|(p & Hp & Hs)]; [by left|]. right. exists p. split; [done|].
      apply bind_Raise in Hs as [?|(s & _ & [=])]. done.
    + intros [?|(p & Hp & Hs)]; [by left|]. right. exists p. split; [done|].
      by rewrite Hs.
Qed.

Lemma build_stem_never_rejects_word_witness :
  build_stem kniga_dict book_paradigm 1 [1080%N; 1080%N; 1080%N]
  = Ok [1080%N; 1080%N] ∧
  build_stem kniga_dict book_paradigm 1 knigi = Ok [1082; 1085; 1080; 1075]%N.
Proof.
  pose proof (build_stem_never_rejects_word kniga_dict book_paradigm 1
                [1080%N; 1080%N; 1080%N]) as [H1 _].
  pose proof (build_stem_never_rejects_word kniga_dict book_paradigm 1
                knigi) as [H2 _].
  split.
  - apply (H1 [] [1080%N]); reflexivity.
  - apply (proj2 (H2 [] [1080%N] eq_refl eq_refl)). reflexivity.
Defined.

(** C8: the normal form of slot 0 is the word itself; for another slot it
    is the prefix of slot 0, the word sliced by the lengths of the slot's
    prefix and suffix, and the suffix of slot 0. With an empty suffix the
    stem is the word behind the prefix, and on a word that is
    prefix + stem + suffix the stem is found again. *)
Theorem build_normal_form_reconstruction d para_id idx w :
  build_normal_form d para_id 0 w = Ok w ∧
  (idx ≠ 0 →
   ∀ paradigm p s p0 s0,
     py_index (paradigms d) para_id = Ok paradigm →
     slot_prefix d paradigm idx = Ok p →
     slot_suffix d paradigm idx = Ok s →
     slot_prefix d paradigm 0 = Ok p0 →
     slot_suffix d paradigm 0 = Ok s0 →
     build_stem d paradigm idx w
     = Ok (drop (length p) (take (length w - length s) w)) ∧
     build_normal_form d para_id idx w
     = Ok (p0 ++ drop (length p) (take (length w - length s) w) ++ s0) ∧
     (s = [] → build_stem d paradigm idx w = Ok (drop (length p) w)) ∧
     (∀ st, w = p ++ st ++ s →
            build_normal_form d para_id idx w = Ok (p0 ++ st ++ s0))).
Proof.
  split; [done|].
  intros Hidx paradigm p s p0 s0 Hpara Hp Hs Hp0 Hs0.
  assert (Hstem : build_stem d paradigm idx w = Ok (strip p s w)).
  { by rewrite build_stem_strip, Hp, Hs. }
  assert (Hnf : build_normal_form d para_id idx w
                = Ok (p0 ++ strip p s w ++ s0)).
  { unfold build_normal_form.
    destruct (Z.eqb_spec idx 0) as [?|_]; [done|].
    rewrite Hpara. simpl. rewrite Hstem. simpl.
    unfold slot_prefix in Hp0. bind_inv Hp0. rewrite Ha. simpl.
    unfold slot_suffix in Hs0. bind_inv Hs0. rewrite Ha0. simpl.
    by rewrite Hp0, Hs0. }
  repeat split.
  - exact Hstem.
  - exact Hnf.
  - intros ->. by rewrite Hstem, strip_empty_suffix.
  - intros st ->. by rewrite Hnf, strip_app.
Qed.

Lemma build_normal_form_reconstruction_witness :
  build_normal_form kniga_dict 0 1 knigi = Ok kniga.
Proof.
  pose proof (build_normal_form_reconstruction kniga_dict 0 1 knigi)
    as [_ H].
  refine (proj2 (proj2 (proj2
    (H _ book_paradigm [] [1080%N] [] [1072%N] _ _ _ _ _)))
    [1082; 1085; 1080; 1075]%N _); (reflexivity || lia).
Defined.

(** ** Dictionary.parse *)

Lemma parse_inv_nil d : parse_inv d [] ∅.
Proof. intros f Hf. by apply elem_of_nil in Hf. Qed.

Lemma parse_values_inv d fixed_word parses : ∀ res memo res' memo',
  parse_inv d res memo →
  parse_values d fixed_word parses res memo = Ok (res', memo') →
  parse_inv d res' memo'.
Proof.
  induction parses as [|[pid i] parses IH]; intros res memo res' memo' Hinv Hrun.
  - simpl in Hrun. by injection Hrun as <- <-.
  - cbn [parse_values] in Hrun.
    bind_inv Hrun. destruct a as [nf memo1].
    bind_inv Hrun. rename a into t.
    apply IH in Hrun; [done|]. clear IH.
    assert (Hnew : memo1 !! pid = Some nf ∧
                   ∀ k v, memo !! k = Some v → memo1 !! k = Some v).
    { destruct (memo !! pid) as [nf0|] eqn:Hmemo.
      - injection Ha as <- <-. done.
      - bind_inv Ha. injection Ha as <- <-. split.
        + apply lookup_insert_eq.
        + intros k v Hk. rewrite lookup_insert_ne; [done|]. congruence. }
    destruct Hnew as [Hpid Hmono].
    intros f [Hf|Hf%list_elem_of_singleton]%elem_of_app.
    + destruct (Hinv f Hf) as (? & ? & ? & ?). auto.
    + subst f. simpl. auto.
Qed.

Lemma parse_items_inv d para_data : ∀ res memo res' memo',
  parse_inv d res memo →
  parse_items d para_data res memo = Ok (res', memo') →
  parse_inv d res' memo'.
Proof.
  induction para_data as [|[fixed_word parses] para_data IH];
    intros res memo res' memo' Hinv Hrun.
  - simpl in Hrun. by injection Hrun as <- <-.
  - cbn [parse_items] in Hrun. bind_inv Hrun. destruct a as [res1 memo1].
    eapply IH; [|done]. by eapply parse_values_inv.
Qed.

Lemma Dictionary_parse_inv d w res :
  Dictionary_parse d w = Ok res → ∃ memo, parse_inv d res memo.
Proof.
  unfold Dictionary_parse. intros Hrun. bind_inv Hrun.
  destruct a as [res' memo]. injection Hrun as <-.
  exists memo. eapply parse_items_inv; [apply parse_inv_nil|done].
Qed.

(** C4: two records of one [Dictionary.parse] call that share the
    paradigm id carry the same normal form, whatever corrected spellings
    and slots they come from. *)
Theorem parse_normal_form_per_paradigm d w res r1 r2 :
  Dictionary_parse d w = Ok res →
  r1 ∈ res → r2 ∈ res →
  para_id r1 = para_id r2 →
  normal_form r1 = normal_form r2.
Proof.
  intros [memo Hinv]%Dictionary_parse_inv H1 H2 Hpid.
  destruct (Hinv r1 H1) as [Hr1 _], (Hinv r2 H2) as [Hr2 _].
  rewrite Hpid in Hr1. congruence.
Qed.

Lemma parse_normal_form_per_paradigm_witness :
  Dictionary_parse knigi3_dict knigi = Ok [knigi_gen; knigi_plur] ∧
  normal_form knigi_gen = normal_form knigi_plur.
Proof.
  split; [reflexivity|].
  apply (parse_normal_form_per_paradigm knigi3_dict knigi
           [knigi_gen; knigi_plur]).
  - reflexivity.
  - apply list_elem_of_here.
  - apply list_elem_of_further, list_elem_of_here.
  - reflexivity.
Defined.

(** ** Normalization *)

Lemma Dictionary_normalized_slot0 d r :
  idx r = 0 → Dictionary_normalized d r = Ok r.
Proof. destruct r; simpl. by intros ->. Qed.

Lemma Dictionary_normalized_other d r :
  idx r ≠ 0 →
  Dictionary_normalized d r
  = (t ← build_tag_info d (para_id r) 0;
     Ok (mkForm (normal_form r) t (normal_form r) (para_id r) 0
                (estimate r) (methods r))).
Proof.
  destruct r; simpl. intros Hidx.
  by destruct (Z.eqb_spec idx0 0).
Qed.

Section NormalizedRoundTrip.

Context {K : Type} `{Countable K}.

(** The last derivation step of a record of [Dictionary.parse] names
    the dictionary, so [Parse.normalized] asks the dictionary. *)
Lemma Parse_normalized_of_parsed (a : MorphAnalyzer (K:=K)) w res r :
  Dictionary_parse (dictionary a) w = Ok res →
  r ∈ res →
  Parse_normalized a r
  = (p ← Dictionary_normalized (dictionary a) r; Ok (ParseObj p)).
Proof.
  intros [memo Hinv]%Dictionary_parse_inv Hr.
  destruct (Hinv r Hr) as (_ & _ & Hmethods & _).
  unfold Parse_normalized. rewrite Hmethods. simpl.
  by rewrite bool_decide_eq_true_2.
Qed.

(** C5: for a record [r] that [Dictionary.parse] made of a known word,
    [Parse.normalized] is the dictionary's [normalized] made a [Parse]
    again; at slot 0 it is [r]; at another slot it is the record of
    slot 0 with the normal form as its word, the tag of slot 0, and
    the paradigm, normal form, estimate and methods of [r]. So the
    result has the normal form of [r] and the slot 0. It fails only
    when the tag of slot 0 cannot be read. *)
Theorem normalized_round_trip (a : MorphAnalyzer (K:=K)) w res r :
  Dictionary_parse (dictionary a) w = Ok res →
  r ∈ res →
  let d := dictionary a in
  Parse_normalized a r
  = (p ← Dictionary_normalized d r; Ok (ParseObj p)) ∧
  (idx r = 0 → Dictionary_normalized d r = Ok r) ∧
  (idx r ≠ 0 → ∀ t,
     build_tag_info d (para_id r) 0 = Ok t →
     Dictionary_normalized d r
     = Ok (mkForm (normal_form r) t (normal_form r) (para_id r) 0
                  (estimate r) (methods r))) ∧
  (∀ r', Dictionary_normalized d r = Ok r' →
         normal_form r' = normal_form r ∧ idx r' = 0) ∧
  (∀ e, Dictionary_normalized d r = Raise e →
        idx r ≠ 0 ∧ build_tag_info d (para_id r) 0 = Raise e).
Proof.
  intros Hparse Hr d. split; [by eapply Parse_normalized_of_parsed|].
  split; [apply Dictionary_normalized_slot0|].
  split; [|split].
  - intros Hidx t Ht. by rewrite Dictionary_normalized_other, Ht.
  - intros r'. destruct (decide (idx r = 0)) as [H0|Hn0].
    + rewrite Dictionary_normalized_slot0 by done. by intros [= <-].
    + rewrite Dictionary_normalized_other by done.
      intros Hr'. bind_inv Hr'. by injection Hr' as <-.
  - intros e. destruct (decide (idx r = 0)) as [H0|Hn0].
    + by rewrite Dictionary_normalized_slot0.
    + rewrite Dictionary_normalized_other by done.
      intros [?|(t & _ & [=])]%bind_Raise. done.
Qed.

End NormalizedRoundTrip.

Lemma normalized_round_trip_witness :
  Parse_normalized knigi_analyzer knigi_form
  = Ok (ParseObj (mkForm kniga NOUN_SG kniga 0 0 1%Q [(Dict_obj 1, knigi)])) ∧
  Dictionary_normalized knigi_dict kniga_form = Ok kniga_form.
Proof.
  pose proof (normalized_round_trip knigi_analyzer knigi [knigi_form]
                knigi_form eq_refl (list_elem_of_here _ _))
    as (Hp & _ & Hn & _).
  split; [|reflexivity].
  etransitivity; [exact Hp|].
  etransitivity;
    [exact (f_equal (fun m => p ← m; Ok (ParseObj p))
                    (Hn ltac:(discriminate) NOUN_SG eq_refl))|].
  reflexivity.
Defined.

(** ** Lexemes *)

Lemma paradigm_info_loop_slots d pid paradigm range : ∀ info,
  paradigm_info_loop d pid paradigm range = Ok info →
  Forall2 (slot_info d pid paradigm) range info.
Proof.
  induction range as [|j range IH]; intros info Hrun.
  - injection Hrun as <-. constructor.
  - cbn [paradigm_info_loop] in Hrun.
    bind_inv Hrun. rename a into p, Ha into Hp.
    bind_inv Hrun. rename a into s, Ha into Hs.
    bind_inv Hrun. rename a into t, Ha into Ht.
    bind_inv Hrun. injection Hrun as <-.
    constructor; [done|]. by apply IH.
Qed.

Lemma build_paradigm_info_slots d pid info :
  build_paradigm_info d pid = Ok info →
  ∃ paradigm,
    py_index (paradigms d) pid = Ok paradigm ∧
    length info = Z.to_nat (py_len paradigm / 3) ∧
    ∀ i pts, info !! i = Some pts →
             slot_info d pid paradigm (Z.of_nat i) pts.
Proof.
  unfold build_paradigm_info. intros Hrun. bind_inv Hrun.
  rename a into paradigm. exists paradigm. split; [done|].
  apply paradigm_info_loop_slots in Hrun. split.
  - by rewrite <- (Forall2_length _ _ _ Hrun), length_seqZ.
  - intros i pts Hi.
    destruct (Forall2_lookup_r _ _ _ _ _ Hrun Hi) as (j & Hj & Hslot).
    apply lookup_seqZ in Hj as [-> _]. by rewrite Z.add_0_l in Hslot.
Qed.

(** [Dictionary.get_lexeme] without the [assert]. *)
Lemma Dictionary_get_lexeme_Ok d r ms lex :
  Dictionary_get_lexeme d r ms = Ok lex →
  first_is (Dict_obj (dict_id d)) ms = true ∧
  ∃ paradigm stem info,
    py_index (paradigms d) (para_id r) = Ok paradigm ∧
    build_stem d paradigm (idx r) (word r) = Ok stem ∧
    build_paradigm_info d (para_id r) = Ok info ∧
    lex = imap (fun index pts =>
                  mkForm (pts.1.1 ++ stem ++ pts.2) pts.1.2 (normal_form r)
                         (para_id r) (Z.of_nat index) (estimate r)
                         (methods r)) info.
Proof.
  unfold Dictionary_get_lexeme.
  destruct (first_is _ ms); [|done]. simpl. destruct r; simpl.
  intros Hrun. split; [done|].
  bind_inv Hrun. rename a into paradigm.
  bind_inv Hrun. rename a into stem.
  bind_inv Hrun. rename a into info.
  injection Hrun as <-. exists paradigm, stem, info.
  repeat split; try done.
  apply imap_ext. by intros i [[p t] s] _.
Qed.

(** The records of a lexeme are numbered by their position. *)
Lemma Dictionary_get_lexeme_idx d r ms lex i f :
  Dictionary_get_lexeme d r ms = Ok lex →
  lex !! i = Some f → idx f = Z.of_nat i.
Proof.
  intros (_ & paradigm & stem & info & _ & _ & _ & ->)
    %Dictionary_get_lexeme_Ok Hf.
  rewrite list_lookup_imap in Hf.
  by apply fmap_Some in Hf as (pts & _ & ->).
Qed.

(** C6: the lexeme that [Dictionary.get_lexeme] returns for a record it
    accepts has one record per slot of the paradigm, in slot order; each
    has the paradigm id of the record and, by [build_stem], its stem;
    each carries the normal form, the estimate and the methods of the
    record unchanged. *)
Theorem get_lexeme_closure d r ms lex :
  Dictionary_get_lexeme d r ms = Ok lex →
  ∃ paradigm stem,
    py_index (paradigms d) (para_id r) = Ok paradigm ∧
    build_stem d paradigm (idx r) (word r) = Ok stem ∧
    length lex = Z.to_nat (py_len paradigm / 3) ∧
    ∀ i f, lex !! i = Some f →
      idx f = Z.of_nat i ∧
      para_id f = para_id r ∧
      build_stem d paradigm (idx f) (word f) = Ok stem ∧
      build_tag_info d (para_id r) (idx f) = Ok (tag f) ∧
      normal_form f = normal_form r ∧
      estimate f = estimate r ∧
      methods f = methods r.
Proof.
  intros (_ & paradigm & stem & info & Hpara & Hstem & Hinfo & ->)
    %Dictionary_get_lexeme_Ok.
  exists paradigm, stem.
  destruct (build_paradigm_info_slots _ _ _ Hinfo)
    as (paradigm' & Hpara' & Hlen & Hslots).
  assert (paradigm' = paradigm) as -> by congruence.
  split; [done|]. split; [done|]. split; [by rewrite length_imap|].
  intros i f Hf. rewrite list_lookup_imap in Hf.
  apply fmap_Some in Hf as ([[p t] s] & Hi & ->). simpl.
  destruct (Hslots i _ Hi) as (Hp & Ht & Hs). simpl in Hp, Ht, Hs.
  repeat split; try done.
  rewrite build_stem_strip, Hp, Hs. simpl. by rewrite strip_app.
Qed.

Lemma get_lexeme_closure_witness :
  Dictionary_get_lexeme kniga_dict kniga_form (methods kniga_form)
  = Ok [kniga_form; mkForm knigi NOUN_PL kniga 0 1 1%Q [(Dict_obj 1, kniga)]] ∧
  build_stem kniga_dict book_paradigm 1 knigi
  = build_stem kniga_dict book_paradigm 0 kniga.
Proof.
  split; [reflexivity|].
  destruct (get_lexeme_closure kniga_dict kniga_form (methods kniga_form)
              _ eq_refl)
    as (paradigm & stem & Hpara & Hstem & _ & Hall).
  injection Hpara as <-.
  destruct (Hall 1%nat _ eq_refl) as (_ & _ & Hstem1 & _).
  exact (eq_trans Hstem1 (eq_sym Hstem)).
Defined.

(** ** The errors of the table lookups *)

Create HintDb index_error.

Lemma only_IndexError_Ok {A} (a : A) : only_IndexError (Ok a).
Proof. by intros e. Qed.

Lemma only_IndexError_bind {A B} (m : result A) (f : A → result B) :
  only_IndexError m → (∀ a, only_IndexError (f a)) →
  only_IndexError (m ≫= f).
Proof.
  intros Hm Hf e [He|(a & _ & He)]%bind_Raise; [by apply Hm|by apply (Hf a)].
Qed.

Lemma only_IndexError_py_index {A} (l : list A) i :
  only_IndexError (py_index l i).
Proof.
  intros e. unfold py_index.
  destruct (_ && _); [destruct (l !! _)|]; congruence.
Qed.

#[local] Hint Resolve only_IndexError_Ok only_IndexError_py_index : index_error.
#[local] Hint Extern 2 (only_IndexError (_ ≫= _)) =>
  apply only_IndexError_bind; [|intros ?] : index_error.

Lemma only_IndexError_slot_prefix d paradigm i :
  only_IndexError (slot_prefix d paradigm i).
Proof. unfold slot_prefix. auto with index_error. Qed.

Lemma only_IndexError_slot_suffix d paradigm i :
  only_IndexError (slot_suffix d paradigm i).
Proof. unfold slot_suffix. auto with index_error. Qed.

Lemma only_IndexError_build_tag_info d pid i :
  only_IndexError (build_tag_info d pid i).
Proof. unfold build_tag_info. auto with index_error. Qed.

#[local] Hint Resolve only_IndexError_slot_prefix only_IndexError_slot_suffix
  only_IndexError_build_tag_info : index_error.

Lemma only_IndexError_build_stem d paradigm i w :
  only_IndexError (build_stem d paradigm i w).
Proof. rewrite build_stem_strip. auto 6 with index_error. Qed.

Lemma only_IndexError_paradigm_info_loop d pid paradigm range :
  only_IndexError (paradigm_info_loop d pid paradigm range).
Proof.
  induction range as [|j range IH]; cbn [paradigm_info_loop];
    auto 10 with index_error.
Qed.

Lemma only_IndexError_build_paradigm_info d pid :
  only_IndexError (build_paradigm_info d pid).
Proof.
  unfold build_paradigm_info.
  apply only_IndexError_bind; [auto with index_error|].
  intros paradigm. apply only_IndexError_paradigm_info_loop.
Qed.

#[local] Hint Resolve only_IndexError_build_stem
  only_IndexError_build_paradigm_info : index_error.

Lemma only_IndexError_not_assert {A} (m : result A) :
  only_IndexError m → m ≠ Raise AssertionError.
Proof. intros Hm Hrun. by apply Hm in Hrun. Qed.

(** ** The ownership check *)

(** C9, as the claim states it, fails for [normalized]: the chain of the
    record names a unit, and the dictionary returns a record all the
    same. *)
Lemma normalized_accepts_foreign_record :
  methods foreign_form = [(Unit_obj 7, knigi)] ∧
  Unit_obj 7 ≠ Dict_obj (dict_id knigi_dict) ∧
  Dictionary_normalized knigi_dict foreign_form
  = Ok (mkForm kniga NOUN_SG kniga 0 0 1%Q [(Unit_obj 7, knigi)]).
Proof. repeat split. discriminate. Qed.

(** C9, amended: [Dictionary.get_lexeme] raises [AssertionError] exactly
    when the methods it is given are not empty and their first step
    names another object than this dictionary. [Dictionary.normalized]
    has no such check: it never raises [AssertionError], and what it
    returns does not depend on the derivation chain, which it copies. *)
Theorem get_lexeme_checks_owner d r ms :
  (∀ c0 w0 ms', ms = (c0, w0) :: ms' → c0 ≠ Dict_obj (dict_id d) →
                Dictionary_get_lexeme d r ms = Raise AssertionError) ∧
  (Dictionary_get_lexeme d r ms = Raise AssertionError →
   ∃ c0 w0 ms', ms = (c0, w0) :: ms' ∧ c0 ≠ Dict_obj (dict_id d)) ∧
  Dictionary_normalized d r ≠ Raise AssertionError ∧
  Dictionary_normalized d (set_methods ms r)
  = (r' ← Dictionary_normalized d r; Ok (set_methods ms r')).
Proof.
  split; [|split; [|split]].
  - intros c0 w0 ms' -> Hc0. unfold Dictionary_get_lexeme. simpl.
    by rewrite bool_decide_eq_false_2.
  - unfold Dictionary_get_lexeme.
    destruct (first_is _ ms) eqn:Hfirst; simpl.
    + destruct r. intros Hrun. exfalso. revert Hrun.
      apply only_IndexError_not_assert.
      apply only_IndexError_bind; [auto with index_error|].
      intros paradigm. auto 8 with index_error.
    + intros _. destruct ms as [|[c0 w0] ms']; [done|].
      exists c0, w0, ms'. split; [done|].
      simpl in Hfirst. by apply bool_decide_eq_false in Hfirst.
  - apply only_IndexError_not_assert.
    destruct (decide (idx r = 0)) as [H0|Hn0].
    + rewrite Dictionary_normalized_slot0 by done. auto with index_error.
    + rewrite Dictionary_normalized_other by done. auto 6 with index_error.
  - destruct (decide (idx r = 0)) as [H0|Hn0].
    + by rewrite !Dictionary_normalized_slot0.
    + rewrite !Dictionary_normalized_other by done. simpl.
      by destruct (build_tag_info d (para_id r) 0).
Qed.

Lemma get_lexeme_checks_owner_witness :
  Dictionary_get_lexeme knigi_dict foreign_form (methods foreign_form)
  = Raise AssertionError.
Proof.
  apply (proj1 (get_lexeme_checks_owner knigi_dict foreign_form
                  (methods foreign_form))
           (Unit_obj 7) knigi []).
  - reflexivity.
  - discriminate.
Defined.

(** ** Known words *)

Lemma truthy_elem_of {A} (l : list A) : truthy l = true ↔ ∃ x, x ∈ l.
Proof.
  destruct l as [|x l]; simpl; split; try done.
  - by intros [x Hx%elem_of_nil].
  - intros _. exists x. apply list_elem_of_here.
Qed.

Lemma elem_of_variants repl w : ∀ v,
  v ∈ variants repl w ↔ variant_of repl w v.
Proof.
  unfold variant_of.
  induction w as [|c w IH]; intros v; cbn [variants].
  - rewrite list_elem_of_singleton. split.
    + intros ->. constructor.
    + apply Forall2_nil_inv_l.
  - rewrite elem_of_app. split.
    + intros [Hv|Hv].
      * apply list_elem_of_fmap in Hv as (v' & -> & Hv').
        constructor; [by left|by apply IH].
      * destruct (repl !! c) as [c'|] eqn:Hc; [|by apply elem_of_nil in Hv].
        apply list_elem_of_fmap in Hv as (v' & -> & Hv').
        constructor; [by right|by apply IH].
    + intros (c' & v' & Hc & Hv' & ->)%Forall2_cons_inv_l.
      apply IH in Hv'. destruct Hc as [->|Hc].
      * left. by apply list_elem_of_fmap_2.
      * right. rewrite Hc. by apply list_elem_of_fmap_2.
Qed.

Lemma elem_of_similar_keys words w repl k :
  k ∈ similar_keys words w repl ↔
  variant_of repl w k ∧ is_Some (words !! k).
Proof.
  unfold similar_keys, similar_items.
  rewrite list_elem_of_fmap. setoid_rewrite list_elem_of_omap.
  setoid_rewrite elem_of_variants. split.
  - intros ([k' vals] & -> & v & Hv & Hk).
    apply fmap_Some in Hk as (vals' & Hvals & [= -> ->]). eauto.
  - intros (Hv & vals & Hvals). exists (k, vals). split; [done|].
    exists k. split; [done|]. by rewrite Hvals.
Qed.

(** The table of [Dictionary.__init__] replaces U+0435 by U+0451 and
    nothing else. *)
Lemma lookup_ee d c c' : ee d !! c = Some c' ↔ c = cyr_ie ∧ c' = cyr_io.
Proof.
  unfold ee, compile_replaces, replaces, char in *. simpl.
  destruct (decide (c = cyr_ie)) as [->|Hc].
  - rewrite lookup_insert_eq. split; [by intros [= <-]|by intros [_ ->]].
  - rewrite lookup_insert_ne, lookup_empty by done.
    split; [done|by intros [? _]].
Qed.

(** C10: with [strict_ee] the word is known exactly when the lexicon
    contains it as it is given; without, exactly when the lexicon
    contains a spelling of it in which some letters U+0435 are replaced
    by U+0451. A lexicon that stores only the word with U+0451 knows the
    spelling with U+0435 in the second sense and not in the first. *)
Theorem word_is_known_strictness d w :
  (Dictionary_word_is_known d w true = true ↔ is_Some (words d !! w)) ∧
  (Dictionary_word_is_known d w false = true ↔
   ∃ v, Forall2 (fun c c' => c' = c ∨ (c = cyr_ie ∧ c' = cyr_io)) w v ∧
        is_Some (words d !! v)) ∧
  (∀ vals,
     let d' := mkDictionary (dict_id d) (paradigms d) (gramtab d)
                 (paradigm_prefixes d) (suffixes d) {[ yolka := vals ]} in
     Dictionary_word_is_known d' elka true = false ∧
     Dictionary_word_is_known d' elka false = true ∧
     Dictionary_word_is_known d' yolka true = true).
Proof.
  split; [|split].
  - unfold Dictionary_word_is_known, contains. apply bool_decide_eq_true.
  - unfold Dictionary_word_is_known. rewrite truthy_elem_of.
    setoid_rewrite elem_of_similar_keys. unfold variant_of.
    split; intros (v & Hv & Hin); exists v; (split; [|done]);
      eapply Forall2_impl; try exact Hv; intros c c' [->|Hc]; auto;
      right; by apply (lookup_ee d).
  - intros vals d'. repeat split.
Qed.

(** ** The unit loop *)

Lemma truthy_true {A} (l : list A) : truthy l = true ↔ l ≠ [].
Proof. by destruct l. Qed.

Section UnitLoop.

Context {K : Type} `{Countable K} {A : Type}.
Variable op : Unit (K:=K) → str → gset K → list A * gset K.

(** What one run of the loop adds to [res] and to the calls. *)
Lemma run_units_calls units w : ∀ res seen pos calls res' seen' calls',
  run_units op units w res seen pos calls = (res', seen', calls') →
  ∃ new,
    calls' = calls ++ new ∧
    res' = res ++ concat new.*2 ∧
    (length new ≤ length units)%nat ∧
    (units ≠ [] → new ≠ []) ∧
    (∀ k c, new !! k = Some c → c.1 = (pos + k)%nat) ∧
    (∀ k c u, new !! k = Some c → units !! k = Some u →
       (is_Some (new !! S k) ↔
        is_Some (units !! S k) ∧
        ¬ (terminal u = true ∧ res ++ results_through new k ≠ []))).
Proof.
  induction units as [|u us IH]; intros res seen pos calls res' seen' calls'.
  - intros [= <- <- <-]. exists []. simpl.
    rewrite !app_nil_r. split_and!; done.
  - cbn [run_units]. destruct (op u w seen) as [out seen1] eqn:Hop.
    destruct (truthy (res ++ out) && terminal u) eqn:Hstop.
    + intros [= <- <- <-]. exists [(pos, out)].
      apply andb_true_iff in Hstop as [Hres%truthy_true Hterm].
      simpl. rewrite app_nil_r.
      split_and!; try done; try lia.
      * intros k c Hk. destruct k; [|done].
        injection Hk as <-. simpl. lia.
      * intros k c u' Hk Hu'. destruct k; [|done].
        injection Hu' as <-. unfold results_through. simpl.
        rewrite app_nil_r. split; [by intros [? ?]|].
        intros [_ Hno]. by destruct Hno.
    + intros Hrun. apply IH in Hrun
        as (new & -> & -> & Hlen & Hne & Hpos & Hnext).
      exists ((pos, out) :: new). simpl.
      rewrite <- !app_assoc. split_and!; try done; try lia.
      * intros k c Hk. destruct k as [|k].
        -- injection Hk as <-. simpl. lia.
        -- apply Hpos in Hk. lia.
      * intros k c u' Hk Hu'. destruct k as [|k].
        -- injection Hu' as <-. injection Hk as <-.
           unfold results_through. simpl. rewrite app_nil_r.
           assert (Hcont : ¬ (terminal u = true ∧ res ++ out ≠ [])).
           { intros [Hterm Hres%truthy_true].
             by rewrite Hterm, Hres in Hstop. }
           split.
           ++ intros [c Hc]. split; [|done].
              destruct us; [|by eexists].
              simpl in Hlen. destruct new; [done|simpl in Hlen; lia].
           ++ intros [[u1 Hu1] _].
              destruct new as [|c new]; [|by eexists].
              destruct Hne; [|done]. by intros ->.
        -- simpl in Hk, Hu'. rewrite (Hnext k c u' Hk Hu').
           unfold results_through. simpl. by rewrite <- app_assoc.
Qed.

(** The loop, started as [parse] and [tag] start it, follows the
    three rules. *)
Lemma run_units_rules units w res' seen' calls :
  run_units op units w [] ∅ 0 [] = (res', seen', calls) →
  res' = concat calls.*2 ∧
  called_in_order units calls ∧
  stops_on_accumulator units calls ∧
  stops_after_terminal_output units calls.
Proof.
  intros (new & -> & -> & Hlen & Hne & Hpos & Hnext)%run_units_calls.
  simpl in *. split; [done|].
  assert (Hacc : stops_on_accumulator units new).
  { intros k c u Hk Hu. apply (Hnext k c u Hk Hu). }
  split; [|split; [done|]].
  - split; [|done]. intros k c Hk. split; [by apply Hpos|].
    apply lookup_lt_is_Some. apply lookup_lt_Some in Hk. lia.
  - intros k c u Hk Hu Hterm Hout.
    assert (Hnone : ¬ is_Some (new !! S k)).
    { rewrite (Hacc k c u Hk Hu). intros [_ Hno]. apply Hno.
      split; [done|]. unfold results_through.
      rewrite (take_S_r _ _ _ Hk), fmap_app, concat_app. simpl.
      rewrite app_nil_r. intros [_ ?]%app_eq_nil. done. }
    apply lookup_lt_Some in Hk.
    rewrite lookup_lt_is_Some in Hnone. lia.
Qed.

End UnitLoop.

(** ** The pipeline of the analyzer *)

Section Pipeline.

Context {K : Type} `{Countable K}.
Implicit Types a : MorphAnalyzer (K:=K).

Lemma parse_run_known a w res :
  Dictionary_parse (dictionary a) w = Ok res → res ≠ [] →
  parse_run a w = Ok (map (wrap a) res, []).
Proof.
  intros Hparse Hres%truthy_true. unfold parse_run.
  rewrite Hparse. simpl. by rewrite Hres.
Qed.

Lemma as_tuple_wrap a p : as_tuple (wrap a p) = p.
Proof. unfold wrap. by destruct (_result_type a) as [[]|]. Qed.

(** C3: when [Dictionary.parse] returns a non-empty list, the result
    of [MorphAnalyzer.parse] is that list, each record wrapped in the
    result type at most; no unit is called; and every record names the
    dictionary as its only derivation step, with estimate 1. *)
Theorem dictionary_result_is_final a w res :
  Dictionary_parse (dictionary a) w = Ok res →
  res ≠ [] →
  MorphAnalyzer_parse a w = Ok (map (wrap a) res) ∧
  map as_tuple (map (wrap a) res) = res ∧
  parse_calls a w = Ok [] ∧
  ∀ r, r ∈ res →
       methods r = [(Dict_obj (dict_id (dictionary a)), word r)] ∧
       estimate r = 1%Q.
Proof.
  intros Hparse Hres.
  pose proof (parse_run_known a w res Hparse Hres) as Hrun.
  split_and!.
  - unfold MorphAnalyzer_parse. by rewrite Hrun.
  - rewrite map_map. rewrite <- (map_id res) at 2.
    apply map_ext. apply as_tuple_wrap.
  - unfold parse_calls. by rewrite Hrun.
  - intros r Hr. apply Dictionary_parse_inv in Hparse as [memo Hinv].
    destruct (Hinv r Hr) as (_ & Hest & Hmethods & _). done.
Qed.

Lemma parse_run_unknown a w :
  Dictionary_parse (dictionary a) w = Ok [] →
  parse_run a w
  = let '(res, _, calls) :=
      run_units unit_parse (_units a) w [] ∅ 0 [] in
    Ok (map (wrap a) res, calls).
Proof.
  intros Hparse. unfold parse_run. rewrite Hparse. simpl.
  by destruct (run_units _ _ _ _ _ _ _) as [[res seen] calls].
Qed.

Lemma tag_run_unknown a w :
  Dictionary_tag (dictionary a) w = Ok [] →
  tag_run a w
  = let '(res, _, calls) :=
      run_units unit_tag (_units a) w [] ∅ 0 [] in
    Ok (res, calls).
Proof. intros Htag. unfold tag_run. by rewrite Htag. Qed.

(** C1, amended: when the dictionary returns nothing, [parse] and
    [tag] call the units in order from the first one, and the unit
    after a called unit is called unless that unit is terminal and the
    results accumulated so far, from that unit or from the units
    before it, are not empty. So no unit is called after a terminal
    unit that returned a result itself. The result is what the called
    units returned, in order. *)
Theorem pipeline_stops_on_accumulated_results a w :
  (Dictionary_parse (dictionary a) w = Ok [] →
   ∃ calls,
     parse_calls a w = Ok calls ∧
     MorphAnalyzer_parse a w = Ok (map (wrap a) (concat calls.*2)) ∧
     called_in_order (_units a) calls ∧
     stops_on_accumulator (_units a) calls ∧
     stops_after_terminal_output (_units a) calls) ∧
  (Dictionary_tag (dictionary a) w = Ok [] →
   ∃ calls,
     tag_calls a w = Ok calls ∧
     MorphAnalyzer_tag a w = Ok (concat calls.*2) ∧
     called_in_order (_units a) calls ∧
     stops_on_accumulator (_units a) calls ∧
     stops_after_terminal_output (_units a) calls).
Proof.
  split.
  - intros Hrun%parse_run_unknown.
    destruct (run_units unit_parse _ _ _ _ _ _) as [[res seen] calls] eqn:Hloop.
    apply run_units_rules in Hloop as (-> & Horder & Hacc & Hterm).
    exists calls. unfold parse_calls, MorphAnalyzer_parse.
    rewrite Hrun. by split_and!.
  - intros Hrun%tag_run_unknown.
    destruct (run_units unit_tag _ _ _ _ _ _) as [[res seen] calls] eqn:Hloop.
    apply run_units_rules in Hloop as (-> & Horder & Hacc & Hterm).
    exists calls. unfold tag_calls, MorphAnalyzer_tag.
    rewrite Hrun. by split_and!.
Qed.

End Pipeline.

Lemma dictionary_result_is_final_witness :
  MorphAnalyzer_parse kniga_analyzer kniga = Ok [ParseObj kniga_form] ∧
  parse_calls kniga_analyzer kniga = Ok [].
Proof.
  destruct (dictionary_result_is_final kniga_analyzer kniga [kniga_form])
    as (Hparse & _ & Hcalls & _).
  - reflexivity.
  - discriminate.
  - split; [exact Hparse|exact Hcalls].
Defined.

(** C1, as the claim states it, fails: the first unit is not terminal
    and returns a result, the second is terminal and returns none, and
    the third unit is not called. *)
Lemma pipeline_stops_after_silent_terminal :
  Dictionary_parse (dictionary late_terminal_analyzer) kniga = Ok [] ∧
  parse_calls late_terminal_analyzer kniga
  = Ok [(0%nat, [guess 10 kniga]); (1%nat, [])] ∧
  ¬ stops_on_own_output (_units late_terminal_analyzer)
      [(0%nat, [guess 10 kniga]); (1%nat, [])].
Proof.
  split_and!; [reflexivity..|].
  intros Hrule.
  destruct (Hrule 1%nat (1%nat, []) (silent_unit 11 true) eq_refl eq_refl)
    as [_ Hnext].
  destruct Hnext as [c Hc]; [|done].
  split; [by eexists|]. by intros [_ ?].
Qed.

Lemma pipeline_stops_on_accumulated_results_witness :
  (∃ calls, parse_calls terminal_analyzer kniga = Ok calls ∧
            calls = [(0%nat, []); (1%nat, [guess 11 kniga])] ∧
            length calls = 2%nat) ∧
  (∃ calls, tag_calls terminal_analyzer kniga = Ok calls ∧
            calls = [(0%nat, []); (1%nat, [NOUN_SG])] ∧
            length calls = 2%nat).
Proof.
  destruct (pipeline_stops_on_accumulated_results terminal_analyzer kniga)
    as [Hparse Htag].
  split.
  - destruct (Hparse eq_refl) as (calls & Hcalls & _ & _ & _ & Hterm).
    exists calls. split; [exact Hcalls|].
    injection Hcalls as <-. split; [reflexivity|].
    apply (Hterm 1%nat (1%nat, [guess 11 kniga]) (guessing_unit 11 true));
      (reflexivity || discriminate).
  - destruct (Htag eq_refl) as (calls & Hcalls & _ & _ & _ & Hterm).
    exists calls. split; [exact Hcalls|].
    injection Hcalls as <-. split; [reflexivity|].
    apply (Hterm 1%nat (1%nat, [NOUN_SG]) (guessing_unit 11 true));
      (reflexivity || discriminate).
Defined.

(** ** Selection of the best candidate *)

(** [max] returns an element with no greater key behind it and only
    smaller keys before it. *)
Lemma py_max_from_split {A} (key : A → nat) l : ∀ best,
  ∃ l1 l2,
    best :: l = l1 ++ py_max_from key best l :: l2 ∧
    (∀ y, y ∈ l1 → (key y < key (py_max_from key best l))%nat) ∧
    (∀ y, y ∈ l2 → (key y ≤ key (py_max_from key best l))%nat).
Proof.
  induction l as [|x l IH]; intros best; cbn [py_max_from].
  - exists [], []. split_and!; [done|intros y Hy..]; by apply elem_of_nil in Hy.
  - destruct (Nat.ltb_spec (key best) (key x)) as [Hlt|Hge].
    + destruct (IH x) as (l1 & l2 & Heq & Hbefore & Hafter).
      set (m := py_max_from key x l) in *.
      exists (best :: l1), l2. split_and!.
      * by rewrite Heq.
      * intros y [->|Hy]%elem_of_cons; [|by apply Hbefore].
        assert (x ∈ l1 ++ m :: l2) as [Hx|Hx]%elem_of_app
          by (rewrite <- Heq; apply list_elem_of_here).
        -- specialize (Hbefore x Hx). lia.
        -- apply elem_of_cons in Hx as [Hxm|Hx]; [by rewrite <- Hxm|].
           specialize (Hafter x Hx). lia.
      * done.
    + destruct (IH best) as (l1 & l2 & Heq & Hbefore & Hafter).
      set (m := py_max_from key best l) in *.
      destruct l1 as [|b l1]; simpl in Heq; injection Heq as Hb Hl.
      * exists [], (x :: l2). split_and!.
        -- by rewrite <- Hb, Hl.
        -- intros y Hy. by apply elem_of_nil in Hy.
        -- intros y [->|Hy]%elem_of_cons; [by rewrite <- Hb|by apply Hafter].
      * subst b. exists (best :: x :: l1), l2. split_and!.
        -- by rewrite Hl.
        -- assert (key best < key m)%nat
             by (apply Hbefore, list_elem_of_here).
           intros y [->|[->|Hy]%elem_of_cons]%elem_of_cons;
             [done|lia|].
           by apply Hbefore, list_elem_of_further.
        -- done.
Qed.

Lemma nlargest1_split {A} (key : A → nat) l x :
  nlargest1 key l = [x] →
  ∃ l1 l2,
    l = l1 ++ x :: l2 ∧
    (∀ y, y ∈ l1 → (key y < key x)%nat) ∧
    (∀ y, y ∈ l2 → (key y ≤ key x)%nat).
Proof.
  destruct l as [|best l]; [done|]. simpl. intros [= <-].
  apply py_max_from_split.
Qed.

Lemma nlargest1_nil {A} (key : A → nat) l : nlargest1 key l = [] ↔ l = [].
Proof. by destruct l. Qed.

Lemma nlargest1_length {A} (key : A → nat) l :
  nlargest1 key l = [] ∨ ∃ x, nlargest1 key l = [x].
Proof. destruct l; [by left|right]. by eexists. Qed.

(** An element of a filtered list splits the list that was filtered. *)
Lemma filter_split {A} (P : A → Prop) `{∀ x, Decision (P x)} l : ∀ f1 x f2,
  filter P l = f1 ++ x :: f2 →
  ∃ l1 l2, l = l1 ++ x :: l2 ∧ filter P l1 = f1 ∧ filter P l2 = f2 ∧ P x.
Proof.
  induction l as [|a l IH]; intros f1 x f2 Hf.
  - by destruct f1.
  - rewrite filter_cons in Hf. destruct (decide (P a)) as [Ha|Ha].
    + destruct f1 as [|b f1]; simpl in Hf; injection Hf as -> Hf.
      * exists [], l. by split_and!.
      * apply IH in Hf as (l1 & l2 & -> & <- & <- & Hx).
        exists (b :: l1), l2. split_and!; try done.
        by rewrite filter_cons_True.
    + apply IH in Hf as (l1 & l2 & -> & <- & <- & Hx).
      exists (a :: l1), l2. split_and!; try done.
      by rewrite filter_cons_False.
Qed.

(** The first of the best candidates, by positions in the list that was
    filtered. *)
Lemma nlargest1_filter {A} (P : A → Prop) `{∀ x, Decision (P x)}
    (key : A → nat) l x :
  nlargest1 key (filter P l) = [x] →
  ∃ i, l !! i = Some x ∧ P x ∧
       ∀ j y, l !! j = Some y → P y →
              (key y ≤ key x)%nat ∧ (key y = key x → (i ≤ j)%nat).
Proof.
  intros (f1 & f2 & Hf & Hbefore & Hafter)%nlargest1_split.
  apply filter_split in Hf as (l1 & l2 & -> & <- & <- & Hx).
  exists (length l1). split_and!.
  - by rewrite list_lookup_middle.
  - done.
  - intros j y Hj Hy.
    destruct (Nat.lt_trichotomy j (length l1)) as [Hlt|[->|Hgt]].
    + rewrite lookup_app_l in Hj by done.
      apply list_elem_of_lookup_2 in Hj.
      assert (key y < key x)%nat by (apply Hbefore, list_elem_of_filter; done).
      lia.
    + rewrite list_lookup_middle in Hj by done. injection Hj as <-. lia.
    + rewrite lookup_app_r in Hj by lia.
      destruct (j - length l1)%nat as [|n] eqn:Hn; [lia|]. simpl in Hj.
      apply list_elem_of_lookup_2 in Hj.
      assert (key y ≤ key x)%nat by (apply Hafter, list_elem_of_filter; done).
      lia.
Qed.

(** ** Inflection *)

Lemma py_index_last {A} (l : list A) x : py_index (l ++ [x]) (-1) = Ok x.
Proof.
  unfold py_index, py_len. rewrite length_app. simpl.
  destruct (Z.leb_spec 0 (Z.of_nat (length l + 1) + -1)) as [_|?]; [|lia].
  destruct (Z.ltb_spec (Z.of_nat (length l + 1) + -1)
                       (Z.of_nat (length l + 1))) as [_|?]; [|lia].
  simpl.
  replace (Z.to_nat (Z.of_nat (length l + 1) + -1)) with (length l) by lia.
  by rewrite list_lookup_middle.
Qed.

Section Inflection.

Context {K : Type} `{Countable K}.
Implicit Types a : MorphAnalyzer (K:=K).

(** The lexeme of a record whose last derivation step names the
    dictionary of the analyzer is the lexeme the dictionary builds. *)
Lemma MorphAnalyzer_get_lexeme_dictionary a r ms w0 lex :
  methods r = ms ++ [(Dict_obj (dict_id (dictionary a)), w0)] →
  MorphAnalyzer_get_lexeme a r = Ok lex →
  ∃ lex0, Dictionary_get_lexeme (dictionary a) r (methods r) = Ok lex0 ∧
          lex = map (wrap a) lex0.
Proof.
  intros Hms. unfold MorphAnalyzer_get_lexeme.
  rewrite Hms, py_index_last. simpl.
  rewrite bool_decide_eq_true_2 by done. simpl. rewrite <- Hms.
  intros Hrun. bind_inv Hrun. injection Hrun as <-. by exists a0.
Qed.

(** [_inflect] asks the tag for the updated grammemes first; an error
    of that call is the error of [inflect]. *)
Lemma Parse_inflect_raises a r G e :
  updated_grammemes (tag r) G = Raise e → Parse_inflect a r G = Raise e.
Proof.
  intros Hg. unfold Parse_inflect, MorphAnalyzer__inflect. by rewrite Hg.
Qed.

Lemma Parse_inflect_lexeme a r G g lex :
  updated_grammemes (tag r) G = Ok g →
  MorphAnalyzer_get_lexeme a r = Ok lex →
  Parse_inflect a r G
  = Ok (head (nlargest1
                (similarity g)
                (filter (fun f => G ⊆ grammemes (tag (as_tuple f))) lex))).
Proof.
  intros Hg Hlex. unfold Parse_inflect, MorphAnalyzer__inflect.
  rewrite Hg. simpl. rewrite Hlex. simpl. by destruct (nlargest1 _ _).
Qed.

Lemma Parse_inflect_lexeme_raises a r G g e :
  updated_grammemes (tag r) G = Ok g →
  MorphAnalyzer_get_lexeme a r = Raise e →
  Parse_inflect a r G = Raise e.
Proof.
  intros Hg Hlex. unfold Parse_inflect, MorphAnalyzer__inflect.
  rewrite Hg. simpl. by rewrite Hlex.
Qed.

(** C7, amended: [inflect] first asks the tag of the record for the
    updated grammemes, and when that call raises, as the tag class does
    for a grammeme it does not know, [inflect] raises the same error.
    When the call returns and the lexeme can be computed, [inflect]
    returns none exactly when no record of the lexeme has a tag with
    all the required grammemes. Otherwise it returns a record of the
    lexeme that has them all, whose tag shares the most grammemes with
    the updated grammemes, and that is the first such record of the
    lexeme; in a lexeme built by the dictionary the position is the slot
    index. *)
Theorem inflect_selects_first_best a r G :
  (∀ e, updated_grammemes (tag r) G = Raise e →
        Parse_inflect a r G = Raise e) ∧
  (∀ g lex,
     updated_grammemes (tag r) G = Ok g →
     MorphAnalyzer_get_lexeme a r = Ok lex →
     let passes f := G ⊆ grammemes (tag (as_tuple f)) in
     let score f := size (g ∩ grammemes (tag (as_tuple f))) in
     (∃ o, Parse_inflect a r G = Ok o) ∧
     (Parse_inflect a r G = Ok None ↔ ∀ f, f ∈ lex → ¬ passes f) ∧
     (∀ x, Parse_inflect a r G = Ok (Some x) →
        passes x ∧
        ∃ i, lex !! i = Some x ∧
             ∀ j y, lex !! j = Some y → passes y →
                    (score y ≤ score x)%nat ∧
                    (score y = score x → (i ≤ j)%nat)) ∧
     (∀ ms w0,
        methods r = ms ++ [(Dict_obj (dict_id (dictionary a)), w0)] →
        ∀ i f, lex !! i = Some f → idx (as_tuple f) = Z.of_nat i)).
Proof.
  split; [intros e; apply Parse_inflect_raises|].
  intros g lex Hg Hlex passes score.
  rewrite (Parse_inflect_lexeme a r G g lex Hg Hlex).
  fold passes.
  set (key := similarity g).
  assert (Hkey : ∀ f, key f = score f) by done.
  split_and!.
  - by eexists.
  - destruct (nlargest1_length key (filter passes lex)) as [Hnil|[x Hx]].
    + rewrite Hnil. simpl. split; [intros _|done].
      apply nlargest1_nil in Hnil. intros f Hf Hpass.
      assert (f ∈ filter passes lex) as Hin by by apply list_elem_of_filter.
      rewrite Hnil in Hin. by apply elem_of_nil in Hin.
    + rewrite Hx. simpl. split; [done|]. intros Hnone. exfalso.
      apply nlargest1_filter in Hx as (i & Hi & Hpass & _).
      apply (Hnone x); [|done]. by eapply list_elem_of_lookup_2.
  - intros x Hsome.
    destruct (nlargest1 key (filter passes lex)) as [|x' rest] eqn:Hx;
      [done|].
    destruct (nlargest1_length key (filter passes lex)) as [Hnil|[x0 Hx0]];
      [congruence|].
    rewrite Hx0 in Hx. injection Hx as <- <-. injection Hsome as <-.
    apply nlargest1_filter in Hx0 as (i & Hi & Hpass & Hbest).
    split; [done|]. exists i. split; [done|].
    intros j y Hj Hy. rewrite <- !Hkey. by apply Hbest.
  - intros ms w0 Hms i f Hf.
    destruct (MorphAnalyzer_get_lexeme_dictionary a r ms w0 lex Hms Hlex)
      as (lex0 & Hlex0 & ->).
    rewrite list_lookup_fmap in Hf.
    apply fmap_Some in Hf as (f0 & Hf0 & ->). rewrite as_tuple_wrap.
    by eapply Dictionary_get_lexeme_idx.
Qed.

End Inflection.

(** C7, as the claim states it, fails: no record of the lexeme has the
    grammeme, so the claim says none, and [inflect] raises the
    [ValueError] of the tag class. *)
Lemma inflect_raises_on_unknown_grammeme :
  MorphAnalyzer_get_lexeme kniga_analyzer kniga_form
  = Ok [ParseObj kniga_form; ParseObj knigi_of_kniga] ∧
  ¬ ({["XXXX"]} ⊆ grammemes (tag kniga_form)) ∧
  ¬ ({["XXXX"]} ⊆ grammemes (tag knigi_of_kniga)) ∧
  updated_grammemes (tag kniga_form) {["XXXX"]} = Raise ValueError ∧
  Parse_inflect kniga_analyzer kniga_form {["XXXX"]} = Raise ValueError.
Proof.
  split_and!; try reflexivity;
    apply (proj1 (bool_decide_eq_false _)); reflexivity.
Qed.

Lemma inflect_selects_first_best_witness :
  Parse_inflect kniga_analyzer kniga_form {["plur"]}
  = Ok (Some (ParseObj knigi_of_kniga)) ∧
  Parse_inflect kniga_analyzer kniga_form {["NOUN"]}
  = Ok (Some (ParseObj kniga_form)) ∧
  Parse_inflect kniga_analyzer kniga_form {["VERB"]} = Ok None ∧
  Parse_inflect kniga_analyzer kniga_form {["XXXX"]} = Raise ValueError.
Proof.
  destruct (inflect_selects_first_best kniga_analyzer kniga_form {["VERB"]})
    as [_ Hverb].
  destruct (Hverb _ _ eq_refl eq_refl) as (_ & Hnone & _).
  destruct (inflect_selects_first_best kniga_analyzer kniga_form {["XXXX"]})
    as [Hraise _].
  split; [reflexivity|]. split; [reflexivity|]. split.
  - apply Hnone. intros f Hf.
    apply elem_of_cons in Hf as [->|Hf];
      [apply (proj1 (bool_decide_eq_false _)); reflexivity|].
    apply elem_of_cons in Hf as [->|Hf];
      [apply (proj1 (bool_decide_eq_false _)); reflexivity|].
    by apply elem_of_nil in Hf.
  - apply Hraise. reflexivity.
Defined.

(** * Further properties *)

(** ** The records of [Dictionary.parse] and the tags of [Dictionary.tag] *)

(** One run of the inner loop of [Dictionary.parse] appends one record
    for each pair, and the inner loop of [Dictionary.tag] appends the
    tags of these records. *)
Lemma parse_values_appends d fixed_word parses : ∀ res memo res' memo',
  parse_values d fixed_word parses res memo = Ok (res', memo') →
  ∃ new,
    res' = res ++ new ∧
    locator <$> new = pair fixed_word <$> parses ∧
    ∀ tags, tag_values d parses tags = Ok (tags ++ (tag <$> new)).
Proof.
  induction parses as [|[pid i] parses IH]; intros res memo res' memo' Hrun.
  - injection Hrun as <- <-. exists []. rewrite app_nil_r.
    split_and!; [done..|]. intros tags. simpl. by rewrite app_nil_r.
  - cbn [parse_values] in Hrun.
    bind_inv Hrun. destruct a as [nf memo1].
    bind_inv Hrun. rename a into t, Ha0 into Ht.
    apply IH in Hrun as (new & -> & Hloc & Htags).
    eexists (_ :: new). split_and!.
    + by rewrite <- app_assoc.
    + by rewrite !fmap_cons, Hloc.
    + intros tags. cbn [tag_values]. rewrite fmap_cons.
      unfold build_tag_info in Ht. bind_inv Ht. rewrite Ha0. simpl.
      bind_inv Ht. rewrite Ha1. simpl. rewrite Ht. simpl.
      rewrite Htags. by rewrite <- app_assoc.
Qed.

Lemma parse_items_appends d para_data : ∀ res memo res' memo',
  parse_items d para_data res memo = Ok (res', memo') →
  ∃ new,
    res' = res ++ new ∧
    locator <$> new = lookup_pairs para_data ∧
    ∀ tags, tag_items d para_data.*2 tags = Ok (tags ++ (tag <$> new)).
Proof.
  induction para_data as [|[fixed_word parses] para_data IH];
    intros res memo res' memo' Hrun.
  - injection Hrun as <- <-. exists []. rewrite app_nil_r.
    split_and!; [done..|]. intros tags. simpl. by rewrite app_nil_r.
  - cbn [parse_items] in Hrun. bind_inv Hrun. destruct a as [res1 memo1].
    apply parse_values_appends in Ha as (new1 & -> & Hloc1 & Htags1).
    apply IH in Hrun as (new2 & -> & Hloc2 & Htags2).
    exists (new1 ++ new2). split_and!.
    + by rewrite <- app_assoc.
    + unfold lookup_pairs in *. simpl. by rewrite fmap_app, Hloc1, Hloc2.
    + intros tags. simpl. rewrite Htags1. simpl.
      rewrite Htags2. by rewrite fmap_app, <- app_assoc.
Qed.

Lemma Dictionary_parse_appends d w res :
  Dictionary_parse d w = Ok res →
  locator <$> res = lookup_pairs (similar_items (words d) w (ee d)) ∧
  Dictionary_tag d w = Ok (tag <$> res).
Proof.
  unfold Dictionary_parse, Dictionary_tag. intros Hrun. bind_inv Hrun.
  destruct a as [res' memo]. injection Hrun as <-.
  apply parse_items_appends in Ha as (new & -> & Hloc & Htags).
  split; [done|]. unfold similar_item_values. by rewrite Htags.
Qed.

Lemma elem_of_similar_items words w repl k vals :
  (k, vals) ∈ similar_items words w repl ↔
  variant_of repl w k ∧ words !! k = Some vals.
Proof.
  unfold similar_items. rewrite list_elem_of_omap.
  setoid_rewrite elem_of_variants. split.
  - intros (v & Hv & Hk).
    apply fmap_Some in Hk as (vals' & Hvals & [= -> ->]). done.
  - intros [Hv Hvals]. exists k. split; [done|]. by rewrite Hvals.
Qed.

Lemma elem_of_lookup_pairs para_data fixed_word pair_ :
  (fixed_word, pair_) ∈ lookup_pairs para_data ↔
  ∃ parses, (fixed_word, parses) ∈ para_data ∧ pair_ ∈ parses.
Proof.
  unfold lookup_pairs. rewrite list_elem_of_In, in_concat.
  setoid_rewrite <- list_elem_of_In. split.
  - intros (l & Hl & Hin). apply list_elem_of_fmap in Hl as ([fw ps] & -> & Hitem).
    simpl in Hin. apply list_elem_of_fmap in Hin as (y & [= -> ->] & Hy).
    by exists ps.
  - intros (parses & Hitem & Hpair).
    exists (map (pair fixed_word) parses). split.
    + apply list_elem_of_fmap. by exists (fixed_word, parses).
    + by apply list_elem_of_fmap_2.
Qed.

Section TagOfParse.

Context {K : Type} `{Countable K}.

(** X1: whenever [Dictionary.parse] returns, [Dictionary.tag] returns
    the tags of its records, in the same order; for a word with at least
    one record [MorphAnalyzer.tag] returns these tags too. *)
Theorem tag_is_tags_of_parse (a : MorphAnalyzer (K:=K)) w res :
  Dictionary_parse (dictionary a) w = Ok res →
  Dictionary_tag (dictionary a) w = Ok (tag <$> res) ∧
  (res ≠ [] → MorphAnalyzer_tag a w = Ok (tag <$> res)).
Proof.
  intros [_ Htag]%Dictionary_parse_appends. split; [done|].
  intros Hres. unfold MorphAnalyzer_tag, tag_run. rewrite Htag. simpl.
  by destruct res.
Qed.

End TagOfParse.

Lemma tag_is_tags_of_parse_witness :
  Dictionary_tag knigi3_dict knigi = Ok [NOUN_SG; NOUN_PL] ∧
  MorphAnalyzer_tag knigi3_analyzer knigi = Ok [NOUN_SG; NOUN_PL].
Proof.
  destruct (tag_is_tags_of_parse knigi3_analyzer knigi
              [knigi_gen; knigi_plur] eq_refl) as [Hd Ha].
  split; [exact Hd|]. apply Ha. discriminate.
Defined.

(** X2: [Dictionary.parse] makes one record for each [(para_id, idx)]
    pair of each similar spelling, in the order of the lookup, with that
    spelling as its word and the tag of that slot. *)
Theorem parse_records_follow_lookup d w res :
  Dictionary_parse d w = Ok res →
  locator <$> res = lookup_pairs (similar_items (words d) w (ee d)) ∧
  ∀ r, r ∈ res → build_tag_info d (para_id r) (idx r) = Ok (tag r).
Proof.
  intros Hparse. split; [by apply Dictionary_parse_appends|].
  apply Dictionary_parse_inv in Hparse as [memo Hinv].
  intros r Hr. by destruct (Hinv r Hr) as (_ & _ & _ & ?).
Qed.

Lemma parse_records_follow_lookup_witness :
  locator <$> [knigi_gen; knigi_plur] = [(knigi, (0, 1)); (knigi, (0, 2))] ∧
  build_tag_info knigi3_dict 0 2 = Ok NOUN_PL.
Proof.
  destruct (parse_records_follow_lookup knigi3_dict knigi
              [knigi_gen; knigi_plur] eq_refl) as [Hloc Htag].
  split; [exact Hloc|].
  apply (Htag knigi_plur). apply list_elem_of_further, list_elem_of_here.
Defined.

(** X3: every record of [Dictionary.parse] has a word that the lexicon
    contains as it is, so that [Parse.is_known] holds of it; the word is
    the queried word up to replacing U+0435 by U+0451, and the pair of
    the record is attached to it. *)
Theorem parsed_records_are_known d w res r :
  Dictionary_parse d w = Ok res →
  r ∈ res →
  Parse_is_known d r = true ∧
  Forall2 (fun c c' => c' = c ∨ (c = cyr_ie ∧ c' = cyr_io)) w (word r) ∧
  ∃ vals, words d !! word r = Some vals ∧ (para_id r, idx r) ∈ vals.
Proof.
  intros [Hloc _]%Dictionary_parse_appends Hr.
  assert (Hin : locator r ∈ lookup_pairs (similar_items (words d) w (ee d))).
  { rewrite <- Hloc. by apply list_elem_of_fmap_2. }
  apply elem_of_lookup_pairs in Hin as (vals & Hitem & Hpair).
  apply elem_of_similar_items in Hitem as [Hvar Hvals].
  split_and!.
  - unfold Parse_is_known, Dictionary_word_is_known, contains.
    apply bool_decide_eq_true. by eexists.
  - eapply Forall2_impl; [exact Hvar|]. intros c c' [->|Hc]; [by left|].
    right. by apply (lookup_ee d).
  - by exists vals.
Qed.

Lemma parsed_records_are_known_witness :
  Parse_is_known yolka_dict (mkForm yolka NOUN_SG yolka 0 0 1%Q
                                    [(Dict_obj 1, yolka)]) = true.
Proof.
  apply (parsed_records_are_known yolka_dict elka
           [mkForm yolka NOUN_SG yolka 0 0 1%Q [(Dict_obj 1, yolka)]]).
  - reflexivity.
  - apply list_elem_of_here.
Defined.

(** X4: a word that is not known, in the sense without [strict_ee], is
    no error for the dictionary: [parse] and [tag] return the empty
    list. Hence a word with a record is known in that sense. *)
Theorem unknown_word_has_no_parse d w :
  (Dictionary_word_is_known d w false = false →
   Dictionary_parse d w = Ok [] ∧ Dictionary_tag d w = Ok []) ∧
  (∀ res, Dictionary_parse d w = Ok res → res ≠ [] →
          Dictionary_word_is_known d w false = true).
Proof.
  assert (Hunknown : Dictionary_word_is_known d w false = false →
                     similar_items (words d) w (ee d) = []).
  { unfold Dictionary_word_is_known, similar_keys.
    by destruct (similar_items _ _ _). }
  split.
  - intros Hitems%Hunknown.
    unfold Dictionary_parse, Dictionary_tag, similar_item_values.
    by rewrite Hitems.
  - intros res Hparse Hres.
    destruct (Dictionary_word_is_known d w false) eqn:Hknown; [done|].
    unfold Dictionary_parse in Hparse.
    rewrite (Hunknown eq_refl) in Hparse. simpl in Hparse. congruence.
Qed.

Lemma unknown_word_has_no_parse_witness :
  Dictionary_parse yolka_dict kniga = Ok [] ∧
  Dictionary_tag yolka_dict kniga = Ok [] ∧
  Dictionary_word_is_known yolka_dict elka false = true.
Proof.
  destruct (unknown_word_has_no_parse yolka_dict kniga) as [Hnone _].
  destruct (unknown_word_has_no_parse yolka_dict elka) as [_ Hsome].
  destruct (Hnone eq_refl) as [Hp Ht].
  split; [exact Hp|]. split; [exact Ht|].
  apply (Hsome [mkForm yolka NOUN_SG yolka 0 0 1%Q [(Dict_obj 1, yolka)]]).
  - reflexivity.
  - discriminate.
Defined.

(** ** The stored normal forms *)

Lemma memo_inv_nil d : memo_inv d [] ∅.
Proof.
  split.
  - intros pid [nf Hnf]. by rewrite lookup_empty in Hnf.
  - by intros i r Hr.
Qed.

Lemma memo_inv_snoc d res memo memo1 fixed_word t nf pid i :
  memo_inv d res memo →
  match memo !! pid with
  | None =>
      normal_form ← build_normal_form d pid i fixed_word;
      Ok (normal_form, <[pid := normal_form]> memo)
  | Some normal_form => Ok (normal_form, memo)
  end = Ok (nf, memo1) →
  memo_inv d (res ++ [mkForm fixed_word t nf pid i 1%Q
                             [(Dict_obj (dict_id d), fixed_word)]])
           memo1.
Proof.
  intros [Hkeys Hfirst] Hmemo. split.
  - intros k Hk. destruct (decide (k = pid)) as [->|Hne].
    + eexists. split; [apply elem_of_app; right; apply list_elem_of_here|done].
    + destruct (Hkeys k) as (r & Hr & Hpid).
      * destruct (memo !! pid); [by injection Hmemo as <- <-|].
        bind_inv Hmemo. injection Hmemo as <- <-.
        by rewrite lookup_insert_ne in Hk.
      * exists r. split; [|done]. apply elem_of_app. by left.
  - intros j r Hr Hnew.
    destruct (decide (j < length res)%nat) as [Hlt|Hge].
    + rewrite lookup_app_l in Hr by done. apply (Hfirst j); [done|].
      intros j' r' Hj' Hr'. apply (Hnew j'); [done|].
      rewrite lookup_app_l; [done|lia].
    + rewrite lookup_app_r in Hr by lia.
      destruct (j - length res)%nat eqn:Hj; [|by destruct n].
      injection Hr as <-. simpl.
      destruct (memo !! pid) as [nf0|] eqn:Hpid.
      * destruct (Hkeys pid) as (r0 & Hr0 & Hpid0); [by eexists|].
        apply list_elem_of_lookup in Hr0 as [j0 Hj0].
        pose proof (lookup_lt_Some _ _ _ Hj0) as Hlt0.
        destruct (Hnew j0 r0); [lia|by rewrite lookup_app_l|done].
      * bind_inv Hmemo. by injection Hmemo as <- <-.
Qed.

Lemma parse_values_memo_inv d fixed_word parses : ∀ res memo res' memo',
  memo_inv d res memo →
  parse_values d fixed_word parses res memo = Ok (res', memo') →
  memo_inv d res' memo'.
Proof.
  induction parses as [|[pid i] parses IH]; intros res memo res' memo' Hinv Hrun.
  - by injection Hrun as <- <-.
  - cbn [parse_values] in Hrun.
    bind_inv Hrun. destruct a as [nf memo1].
    bind_inv Hrun. rename a into t.
    eapply IH; [|done]. by eapply memo_inv_snoc.
Qed.

Lemma parse_items_memo_inv d para_data : ∀ res memo res' memo',
  memo_inv d res memo →
  parse_items d para_data res memo = Ok (res', memo') →
  memo_inv d res' memo'.
Proof.
  induction para_data as [|[fixed_word parses] para_data IH];
    intros res memo res' memo' Hinv Hrun.
  - by injection Hrun as <- <-.
  - cbn [parse_items] in Hrun. bind_inv Hrun. destruct a as [res1 memo1].
    eapply IH; [|done]. by eapply parse_values_memo_inv.
Qed.

(** X5: the first record that one [Dictionary.parse] call makes of a
    paradigm carries the normal form built from its own word and slot;
    the later records of that paradigm take it over. *)
Theorem first_record_builds_normal_form d w res i r :
  Dictionary_parse d w = Ok res →
  res !! i = Some r →
  (∀ j r', (j < i)%nat → res !! j = Some r' → para_id r' ≠ para_id r) →
  build_normal_form d (para_id r) (idx r) (word r) = Ok (normal_form r).
Proof.
  unfold Dictionary_parse. intros Hrun Hr Hfirst. bind_inv Hrun.
  destruct a as [res' memo]. injection Hrun as <-.
  apply parse_items_memo_inv in Ha as [_ Hbuilt]; [|apply memo_inv_nil].
  by apply (Hbuilt i).
Qed.

Lemma first_record_builds_normal_form_witness :
  build_normal_form knigi3_dict 0 1 knigi = Ok kniga.
Proof.
  apply (first_record_builds_normal_form knigi3_dict knigi
           [knigi_gen; knigi_plur] 0%nat knigi_gen).
  - reflexivity.
  - reflexivity.
  - intros j r' Hj. lia.
Defined.

(** ** Runs of the loop that reach the last unit *)

Section FullRuns.

Context {K : Type} `{Countable K} {A : Type}.
Variable op : Unit (K:=K) → str → gset K → list A * gset K.

Lemma run_units_no_terminal units w : ∀ res seen pos calls,
  Forall (fun u => terminal u = false) units →
  length (run_units op units w res seen pos calls).2
  = (length calls + length units)%nat.
Proof.
  induction units as [|u us IH]; intros res seen pos calls Hall; simpl.
  - lia.
  - apply Forall_cons in Hall as [Hu Hus].
    destruct (op u w seen) as [out seen1]. rewrite Hu, andb_false_r.
    rewrite IH by done. rewrite length_app. simpl. lia.
Qed.

Lemma run_units_silent units w : ∀ seen pos calls,
  Forall (fun u => ∀ seen, (op u w seen).1 = []) units →
  (run_units op units w [] seen pos calls).1.1 = [] ∧
  length (run_units op units w [] seen pos calls).2
  = (length calls + length units)%nat.
Proof.
  induction units as [|u us IH]; intros seen pos calls Hall; simpl.
  - split; [done|lia].
  - apply Forall_cons in Hall as [Hu Hus]. specialize (Hu seen).
    destruct (op u w seen) as [out seen1]. simpl in Hu. subst out. simpl.
    destruct (IH seen1 (S pos) (calls ++ [(pos, [])]) Hus) as [Hres Hlen].
    split; [done|]. rewrite Hlen, length_app. simpl. lia.
Qed.

End FullRuns.

Section EveryUnit.

Context {K : Type} `{Countable K}.
Implicit Types a : MorphAnalyzer (K:=K).

(** X6: for a word without a dictionary result, [parse] and [tag] call
    every unit when no unit is terminal, and also when every unit
    returns the empty list, whatever the terminal flags are; in the
    second case the result is the empty list, not an error. *)
Theorem pipeline_consults_every_unit a w :
  (Dictionary_parse (dictionary a) w = Ok [] →
   (Forall (fun u => terminal u = false) (_units a) →
    ∃ calls, parse_calls a w = Ok calls ∧
             length calls = length (_units a)) ∧
   (Forall (fun u => ∀ seen, (unit_parse u w seen).1 = []) (_units a) →
    MorphAnalyzer_parse a w = Ok [] ∧
    ∃ calls, parse_calls a w = Ok calls ∧
             length calls = length (_units a))) ∧
  (Dictionary_tag (dictionary a) w = Ok [] →
   (Forall (fun u => terminal u = false) (_units a) →
    ∃ calls, tag_calls a w = Ok calls ∧
             length calls = length (_units a)) ∧
   (Forall (fun u => ∀ seen, (unit_tag u w seen).1 = []) (_units a) →
    MorphAnalyzer_tag a w = Ok [] ∧
    ∃ calls, tag_calls a w = Ok calls ∧
             length calls = length (_units a))).
Proof.
  split.
  - intros Hrun%parse_run_unknown.
    unfold parse_calls, MorphAnalyzer_parse. rewrite Hrun. split.
    + intros Hlen%(run_units_no_terminal unit_parse _ w [] ∅ 0%nat []).
      destruct (run_units unit_parse _ _ _ _ _ _) as [[res seen] calls].
      simpl in *. by exists calls.
    + intros [Hres Hlen]%(run_units_silent unit_parse _ w ∅ 0%nat []).
      destruct (run_units unit_parse _ _ _ _ _ _) as [[res seen] calls].
      simpl in *. subst res. split; [done|]. by exists calls.
  - intros Hrun%tag_run_unknown.
    unfold tag_calls, MorphAnalyzer_tag. rewrite Hrun. split.
    + intros Hlen%(run_units_no_terminal unit_tag _ w [] ∅ 0%nat []).
      destruct (run_units unit_tag _ _ _ _ _ _) as [[res seen] calls].
      simpl in *. by exists calls.
    + intros [Hres Hlen]%(run_units_silent unit_tag _ w ∅ 0%nat []).
      destruct (run_units unit_tag _ _ _ _ _ _) as [[res seen] calls].
      simpl in *. subst res. split; [done|]. by exists calls.
Qed.

End EveryUnit.

Lemma pipeline_consults_every_unit_witness :
  MorphAnalyzer_parse silent_analyzer kniga = Ok [] ∧
  MorphAnalyzer_tag silent_analyzer kniga = Ok [] ∧
  (∃ calls, parse_calls guessing_analyzer kniga = Ok calls ∧
            length calls = 3%nat) ∧
  (∃ calls, tag_calls guessing_analyzer kniga = Ok calls ∧
            length calls = 3%nat).
Proof.
  destruct (pipeline_consults_every_unit silent_analyzer kniga)
    as [Hsp Hst].
  destruct (pipeline_consults_every_unit guessing_analyzer kniga)
    as [Hgp Hgt].
  split_and!.
  - refine (proj1 (proj2 (Hsp eq_refl) _)). by repeat constructor.
  - refine (proj1 (proj2 (Hst eq_refl) _)). by repeat constructor.
  - refine (proj1 (Hgp eq_refl) _). by repeat constructor.
  - refine (proj1 (Hgt eq_refl) _). by repeat constructor.
Defined.

(** ** Normal forms of a word *)

(** The loop appends to [result] the normal forms that are new, once
    each, in the order in which they are first met. *)
Lemma normal_forms_loop_spec parses : ∀ seen res,
  (∀ x, x ∈ seen ↔ x ∈ res) →
  ∃ added,
    normal_forms_loop parses seen res = res ++ added ∧
    NoDup added ∧
    (∀ x, x ∈ added ↔
          (x ∉ res) ∧ (∃ p, p ∈ parses ∧ normal_form (as_tuple p) = x)) ∧
    (∀ i j x y, added !! i = Some x → added !! j = Some y → (i < j)%nat →
       ∃ l1 l2, map (fun p => normal_form (as_tuple p)) parses = l1 ++ x :: l2 ∧
                y ∉ l1).
Proof.
  induction parses as [|p parses IH]; intros seen res Hseen.
  - exists []. simpl. rewrite app_nil_r. split_and!; [done|constructor|..].
    + intros x. split; [by intros ?%elem_of_nil|].
      by intros (_ & p & ?%elem_of_nil & _).
    + by intros i j x y Hi.
  - cbn [normal_forms_loop]. set (n := normal_form (as_tuple p)).
    destruct (bool_decide_reflect (n ∈ seen)) as [Hin|Hnew].
    + destruct (IH seen res Hseen) as (added & -> & Hdup & Hmem & Hord).
      apply Hseen in Hin.
      exists added. split_and!; [done..| |].
      * intros x. rewrite Hmem. split.
        -- intros (Hx & q & Hq & Hnf). split; [done|].
           exists q. split; [by apply list_elem_of_further|done].
        -- intros (Hx & q & [->|Hq]%elem_of_cons & Hnf).
           ++ fold n in Hnf. by subst x.
           ++ split; [done|]. by exists q.
      * intros i j x y Hi Hj Hij.
        destruct (Hord i j x y Hi Hj Hij) as (l1 & l2 & Heq & Hy).
        exists (n :: l1), l2. split; [simpl; by rewrite Heq|].
        intros [->|?]%elem_of_cons; [|done].
        apply list_elem_of_lookup_2, Hmem in Hj as [? _]. done.
    + assert (Hn : n ∉ res) by by rewrite <- Hseen.
      destruct (IH (seen ∪ {[n]}) (res ++ [n])) as (added & -> & Hdup & Hmem & Hord).
      { intros x. rewrite elem_of_union, elem_of_app, elem_of_singleton,
          list_elem_of_singleton, Hseen. done. }
      assert (Hfresh : ∀ x, x ∈ added → (x ∉ res) ∧ x ≠ n).
      { intros x [Hx _]%Hmem. rewrite elem_of_app, list_elem_of_singleton in Hx.
        split; intros ?; apply Hx; auto. }
      exists (n :: added). split_and!.
      * by rewrite <- app_assoc.
      * constructor; [|done]. intros [_ ?]%Hfresh. done.
      * intros x. rewrite elem_of_cons. split.
        -- intros [->|Hx].
           ++ split; [done|]. exists p. split; [apply list_elem_of_here|done].
           ++ destruct (Hfresh x Hx) as [Hres _]. split; [done|].
              apply Hmem in Hx as (_ & q & Hq & Hnf).
              exists q. split; [by apply list_elem_of_further|done].
        -- intros (Hx & q & Hq & Hnf).
           destruct (decide (x = n)) as [|Hne]; [by left|right].
           apply Hmem. split.
           ++ rewrite elem_of_app, list_elem_of_singleton. by intros [?|?].
           ++ apply elem_of_cons in Hq as [->|Hq]; [by fold n in Hnf|].
              by exists q.
      * intros i j x y Hi Hj Hij. destruct j as [|j]; [lia|]. simpl in Hj.
        pose proof (proj2 (Hfresh y (list_elem_of_lookup_2 _ _ _ Hj))) as Hy.
        destruct i as [|i].
        -- injection Hi as <-. exists []. eexists.
           split; [done|]. by intros ?%elem_of_nil.
        -- simpl in Hi.
           destruct (Hord i j x y Hi Hj ltac:(lia)) as (l1 & l2 & Heq & Hl1).
           exists (n :: l1), l2. split; [simpl; by rewrite Heq|].
           by intros [?|?]%elem_of_cons.
Qed.

Section NormalForms.

Context {K : Type} `{Countable K}.

(** X7: [normal_forms] returns the normal forms of the parses of the
    word, each once, and a normal form stands before another one when
    it is met in the parses before every occurrence of the other. *)
Theorem normal_forms_first_seen (a : MorphAnalyzer (K:=K)) w parses :
  MorphAnalyzer_parse a w = Ok parses →
  ∃ nfs,
    MorphAnalyzer_normal_forms a w = Ok nfs ∧
    NoDup nfs ∧
    (∀ nf, nf ∈ nfs ↔ ∃ p, p ∈ parses ∧ normal_form (as_tuple p) = nf) ∧
    (∀ i j x y, nfs !! i = Some x → nfs !! j = Some y → (i < j)%nat →
       ∃ l1 l2, map (fun p => normal_form (as_tuple p)) parses = l1 ++ x :: l2 ∧
                y ∉ l1).
Proof.
  intros Hparse. unfold MorphAnalyzer_normal_forms. rewrite Hparse. simpl.
  destruct (normal_forms_loop_spec parses ∅ [])
    as (nfs & -> & Hdup & Hmem & Hord).
  { intros x. split; [by intros ?%elem_of_empty|by intros ?%elem_of_nil]. }
  exists nfs. split_and!; [done..| |done].
  intros nf. rewrite Hmem. split; [by intros [_ ?]|].
  intros Hp. split; [by intros ?%elem_of_nil|done].
Qed.

End NormalForms.

Lemma normal_forms_first_seen_witness :
  ∃ nfs, MorphAnalyzer_normal_forms knigi3_analyzer knigi = Ok nfs ∧
         nfs = [kniga] ∧ NoDup nfs ∧ kniga ∈ nfs.
Proof.
  destruct (normal_forms_first_seen knigi3_analyzer knigi
              [ParseObj knigi_gen; ParseObj knigi_plur] eq_refl)
    as (nfs & Hnfs & Hdup & Hmem & _).
  exists nfs. split_and!; [exact Hnfs| |exact Hdup|].
  - by injection Hnfs as <-.
  - apply Hmem. exists (ParseObj knigi_gen).
    split; [apply list_elem_of_here|reflexivity].
Defined.

(** ** Lexemes, once more *)

Lemma Dictionary_get_lexeme_records d r ms lex :
  Dictionary_get_lexeme d r ms = Ok lex ↔
  first_is (Dict_obj (dict_id d)) ms = true ∧
  ∃ paradigm stem info,
    py_index (paradigms d) (para_id r) = Ok paradigm ∧
    build_stem d paradigm (idx r) (word r) = Ok stem ∧
    build_paradigm_info d (para_id r) = Ok info ∧
    lex = lexeme_records r stem info.
Proof.
  split; [apply Dictionary_get_lexeme_Ok|].
  intros (Hfirst & paradigm & stem & info & Hpara & Hstem & Hinfo & ->).
  unfold Dictionary_get_lexeme. rewrite Hfirst. simpl. destruct r; simpl in *.
  rewrite Hpara. simpl. rewrite Hstem. simpl. rewrite Hinfo. simpl.
  f_equal. apply imap_ext. by intros i [[p t] s] _.
Qed.

(** A record of a lexeme, with what the tables hold for its slot. *)
Lemma lexeme_records_lookup d r paradigm stem info i f :
  py_index (paradigms d) (para_id r) = Ok paradigm →
  build_paradigm_info d (para_id r) = Ok info →
  lexeme_records r stem info !! i = Some f →
  ∃ p t s,
    slot_prefix d paradigm (Z.of_nat i) = Ok p ∧
    build_tag_info d (para_id r) (Z.of_nat i) = Ok t ∧
    slot_suffix d paradigm (Z.of_nat i) = Ok s ∧
    f = mkForm (p ++ stem ++ s) t (normal_form r) (para_id r) (Z.of_nat i)
               (estimate r) (methods r).
Proof.
  intros Hpara Hinfo Hf. unfold lexeme_records in Hf.
  rewrite list_lookup_imap in Hf.
  apply fmap_Some in Hf as ([[p t] s] & Hi & ->).
  destruct (build_paradigm_info_slots _ _ _ Hinfo)
    as (paradigm' & Hpara' & _ & Hslots).
  assert (paradigm' = paradigm) as -> by congruence.
  destruct (Hslots i _ Hi) as (Hp & Ht & Hs). by exists p, t, s.
Qed.

Lemma build_normal_form_Ok d pid i w paradigm nf :
  i ≠ 0 →
  py_index (paradigms d) pid = Ok paradigm →
  build_normal_form d pid i w = Ok nf ↔
  ∃ stem p0 s0,
    build_stem d paradigm i w = Ok stem ∧
    slot_prefix d paradigm 0 = Ok p0 ∧
    slot_suffix d paradigm 0 = Ok s0 ∧
    nf = p0 ++ stem ++ s0.
Proof.
  intros Hi Hpara. unfold build_normal_form, slot_prefix, slot_suffix.
  destruct (Z.eqb_spec i 0) as [?|_]; [done|]. rewrite Hpara. simpl.
  split.
  - intros Hrun. bind_inv Hrun. rename a into stem.
    bind_inv Hrun. bind_inv Hrun. bind_inv Hrun. bind_inv Hrun.
    injection Hrun as <-. exists stem, a1, a2.
    rewrite Ha0, Ha1. simpl. by rewrite Ha2, Ha3.
  - intros (stem & p0 & s0 & -> & Hp0 & Hs0 & ->). simpl.
    bind_inv Hp0. bind_inv Hs0. rewrite Ha, Ha0. simpl.
    by rewrite Hp0, Hs0.
Qed.

Section LexemeOfMember.

Context {K : Type} `{Countable K}.
Implicit Types a : MorphAnalyzer (K:=K).

Lemma Dictionary_get_lexeme_member d r ms lex f :
  Dictionary_get_lexeme d r ms = Ok lex →
  f ∈ lex →
  Dictionary_get_lexeme d f ms = Ok lex ∧ methods f = methods r.
Proof.
  intros (Hfirst & paradigm & stem & info & Hpara & Hstem & Hinfo & ->)
    %Dictionary_get_lexeme_records [i Hf]%list_elem_of_lookup.
  destruct (lexeme_records_lookup d r paradigm stem info i f Hpara Hinfo Hf)
    as (p & t & s & Hp & Ht & Hs & ->).
  split; [|done]. apply Dictionary_get_lexeme_records. split; [done|].
  exists paradigm, stem, info. simpl. split_and!; try done.
  rewrite build_stem_strip, Hp, Hs. simpl. by rewrite strip_app.
Qed.

(** X8: the lexeme of a record of a lexeme is that lexeme: what
    [Dictionary.get_lexeme] returns for a record it returns again for
    each record of the result, and so does [Parse.lexeme] for a record
    whose last derivation step names the dictionary. *)
Theorem lexeme_of_member a r lex :
  (∀ ms, Dictionary_get_lexeme (dictionary a) r ms = Ok lex →
         ∀ f, f ∈ lex → Dictionary_get_lexeme (dictionary a) f ms = Ok lex) ∧
  (∀ ms w0 lex',
     methods r = ms ++ [(Dict_obj (dict_id (dictionary a)), w0)] →
     Parse_lexeme a r = Ok lex' →
     ∀ f, f ∈ lex' → Parse_lexeme a (as_tuple f) = Ok lex').
Proof.
  split.
  - intros ms Hlex f Hf. by eapply Dictionary_get_lexeme_member.
  - intros ms w0 lex' Hms Hlex f Hf. unfold Parse_lexeme in *.
    destruct (MorphAnalyzer_get_lexeme_dictionary a r ms w0 lex' Hms Hlex)
      as (lex0 & Hlex0 & ->).
    apply list_elem_of_fmap in Hf as (f0 & -> & Hf0).
    rewrite as_tuple_wrap.
    destruct (Dictionary_get_lexeme_member _ _ _ _ _ Hlex0 Hf0)
      as [Hmember Hmethods].
    unfold MorphAnalyzer_get_lexeme.
    rewrite Hmethods, Hms, py_index_last. simpl.
    rewrite bool_decide_eq_true_2 by done. simpl.
    rewrite <- Hms. by rewrite Hmember.
Qed.

End LexemeOfMember.

Lemma lexeme_of_member_witness :
  Parse_lexeme kniga_analyzer knigi_of_kniga
  = Ok [ParseObj kniga_form; ParseObj knigi_of_kniga].
Proof.
  apply (proj2 (lexeme_of_member kniga_analyzer kniga_form
                  [kniga_form; knigi_of_kniga])
           [] kniga [ParseObj kniga_form; ParseObj knigi_of_kniga]
           eq_refl eq_refl (ParseObj knigi_of_kniga)).
  apply list_elem_of_further, list_elem_of_here.
Defined.

(** X9: a record whose word carries the prefix and the suffix of its
    slot, and whose tag is the tag of its slot, is the record of its
    lexeme at the position of its slot. *)
Theorem lexeme_contains_record d r ms lex paradigm p s st i :
  Dictionary_get_lexeme d r ms = Ok lex →
  py_index (paradigms d) (para_id r) = Ok paradigm →
  slot_prefix d paradigm (idx r) = Ok p →
  slot_suffix d paradigm (idx r) = Ok s →
  word r = p ++ st ++ s →
  build_tag_info d (para_id r) (idx r) = Ok (tag r) →
  idx r = Z.of_nat i →
  (i < length lex)%nat →
  lex !! i = Some r.
Proof.
  intros (_ & paradigm' & stem & info & Hpara' & Hstem & Hinfo & ->)
    %Dictionary_get_lexeme_records Hpara Hp Hs Hword Htag Hidx Hlen.
  assert (paradigm' = paradigm) as -> by congruence.
  rewrite build_stem_strip, Hp, Hs, Hword in Hstem. simpl in Hstem.
  rewrite strip_app in Hstem. injection Hstem as <-.
  destruct (lookup_lt_is_Some_2 _ _ Hlen) as [f Hf]. rewrite Hf. f_equal.
  destruct (lexeme_records_lookup d r paradigm st info i f Hpara Hinfo Hf)
    as (p' & t' & s' & Hp' & Ht' & Hs' & ->).
  rewrite <- Hidx in Hp', Ht', Hs'.
  assert (p' = p) as -> by congruence.
  assert (s' = s) as -> by congruence.
  assert (t' = tag r) as -> by congruence.
  destruct r; simpl in *. by subst.
Qed.

Lemma lexeme_contains_record_witness :
  [kniga_form; knigi_of_kniga] !! 1%nat = Some knigi_of_kniga.
Proof.
  apply (lexeme_contains_record kniga_dict knigi_of_kniga
           (methods knigi_of_kniga) [kniga_form; knigi_of_kniga]
           book_paradigm [] [1080%N] [1082; 1085; 1080; 1075]%N 1);
    (reflexivity || (simpl; lia)).
Defined.

(** ** Normalization and the lexeme *)

(** X10: [Dictionary.normalized] is idempotent; and for a record away
    from slot 0 whose normal form is the one built from its word and
    slot, the normalized record is the first record of its lexeme. *)
Theorem normalized_is_lexeme_head d r :
  (∀ r', Dictionary_normalized d r = Ok r' →
         Dictionary_normalized d r' = Ok r') ∧
  (∀ ms lex f0,
     idx r ≠ 0 →
     build_normal_form d (para_id r) (idx r) (word r) = Ok (normal_form r) →
     Dictionary_get_lexeme d r ms = Ok lex →
     lex !! 0%nat = Some f0 →
     Dictionary_normalized d r = Ok f0).
Proof.
  split.
  - intros r'. destruct (decide (idx r = 0)) as [H0|Hn0].
    + rewrite Dictionary_normalized_slot0 by done. intros [= <-].
      by apply Dictionary_normalized_slot0.
    + rewrite Dictionary_normalized_other by done.
      intros Hr'. bind_inv Hr'. injection Hr' as <-.
      by apply Dictionary_normalized_slot0.
  - intros ms lex f0 Hidx Hnf
      (_ & paradigm & stem & info & Hpara & Hstem & Hinfo & ->)
      %Dictionary_get_lexeme_records Hf0.
    destruct (lexeme_records_lookup d r paradigm stem info 0 f0 Hpara Hinfo Hf0)
      as (p0 & t0 & s0 & Hp0 & Ht0 & Hs0 & ->).
    destruct (proj1 (build_normal_form_Ok d _ _ _ paradigm _ Hidx Hpara) Hnf)
      as (stem' & p0' & s0' & Hstem' & Hp0' & Hs0' & Hnf').
    change (Z.of_nat 0) with 0 in *.
    assert (stem' = stem) as -> by congruence.
    assert (p0' = p0) as -> by congruence.
    assert (s0' = s0) as -> by congruence.
    rewrite Dictionary_normalized_other, Ht0 by done. simpl.
    by rewrite <- Hnf'.
Qed.

Lemma normalized_is_lexeme_head_witness :
  Dictionary_normalized kniga_dict knigi_of_kniga = Ok kniga_form.
Proof.
  apply (proj2 (normalized_is_lexeme_head kniga_dict knigi_of_kniga)
           (methods knigi_of_kniga) [kniga_form; knigi_of_kniga]);
    (reflexivity || discriminate).
Defined.

(** X11: the normal form built from any record of a lexeme, with its
    own word and slot, is the word of the first record of the lexeme. *)
Theorem lexeme_shares_normal_form d r ms lex f0 i f :
  Dictionary_get_lexeme d r ms = Ok lex →
  lex !! 0%nat = Some f0 →
  lex !! i = Some f →
  build_normal_form d (para_id f) (idx f) (word f) = Ok (word f0).
Proof.
  intros (_ & paradigm & stem & info & Hpara & Hstem & Hinfo & ->)
    %Dictionary_get_lexeme_records Hf0 Hf.
  destruct (lexeme_records_lookup d r paradigm stem info 0 f0 Hpara Hinfo Hf0)
    as (p0 & t0 & s0 & Hp0 & Ht0 & Hs0 & ->).
  destruct (lexeme_records_lookup d r paradigm stem info i f Hpara Hinfo Hf)
    as (p & t & s & Hp & Ht & Hs & ->).
  change (Z.of_nat 0) with 0 in *. simpl. destruct i as [|i].
  - change (Z.of_nat 0) with 0 in *.
    assert (p = p0) as -> by congruence.
    assert (s = s0) as -> by congruence. done.
  - apply (build_normal_form_Ok d _ _ _ paradigm); [lia|done|].
    exists stem, p0, s0. split_and!; try done.
    rewrite build_stem_strip, Hp, Hs. simpl. by rewrite strip_app.
Qed.

Lemma lexeme_shares_normal_form_witness :
  build_normal_form kniga_dict 0 1 knigi = Ok kniga.
Proof.
  apply (lexeme_shares_normal_form kniga_dict kniga_form (methods kniga_form)
           [kniga_form; knigi_of_kniga] kniga_form 1%nat knigi_of_kniga);
    reflexivity.
Defined.

(** ** Paradigms that can be decoded *)

(** X12: when [build_paradigm_info] can decode a paradigm, no lookup of
    a slot of that paradigm fails: for every slot index in range the
    tag can be read, the normal form of every word can be built, the
    lexeme of every record with its own derivation chain has one record
    for each slot, and the record can be normalized. *)
Theorem decoded_paradigm_never_fails d pid info i :
  build_paradigm_info d pid = Ok info →
  0 ≤ i < Z.of_nat (length info) →
  (∃ t, build_tag_info d pid i = Ok t) ∧
  (∀ w, ∃ nf, build_normal_form d pid i w = Ok nf) ∧
  (∀ r ms, para_id r = pid → idx r = i →
           first_is (Dict_obj (dict_id d)) ms = true →
           ∃ lex, Dictionary_get_lexeme d r ms = Ok lex ∧
                  length lex = length info) ∧
  (∀ r, para_id r = pid → ∃ r', Dictionary_normalized d r = Ok r').
Proof.
  intros Hinfo Hi.
  destruct (build_paradigm_info_slots _ _ _ Hinfo)
    as (paradigm & Hpara & _ & Hslots).
  assert (Hslot : ∀ j, 0 ≤ j < Z.of_nat (length info) →
                       ∃ p t s, slot_prefix d paradigm j = Ok p ∧
                                build_tag_info d pid j = Ok t ∧
                                slot_suffix d paradigm j = Ok s).
  { intros j Hj.
    destruct (lookup_lt_is_Some_2 info (Z.to_nat j)) as [[[p t] s] Hpts];
      [lia|].
    destruct (Hslots _ _ Hpts) as (Hp & Ht & Hs).
    rewrite Z2Nat.id in Hp, Ht, Hs by lia. by exists p, t, s. }
  destruct (Hslot i Hi) as (p & t & s & Hp & Ht & Hs).
  destruct (Hslot 0 ltac:(lia)) as (p0 & t0 & s0 & Hp0 & Ht0 & Hs0).
  assert (Hstem : ∀ w, build_stem d paradigm i w = Ok (strip p s w)).
  { intros w. by rewrite build_stem_strip, Hp, Hs. }
  split_and!.
  - by exists t.
  - intros w. destruct (decide (i = 0)) as [->|Hn0]; [by exists w|].
    exists (p0 ++ strip p s w ++ s0).
    apply (build_normal_form_Ok d _ _ _ paradigm); [done..|].
    by exists (strip p s w), p0, s0.
  - intros r ms <- <- Hfirst. eexists. split.
    + apply Dictionary_get_lexeme_records. split; [done|].
      by exists paradigm, (strip p s (word r)), info.
    + unfold lexeme_records. by rewrite length_imap.
  - intros r <-. destruct (decide (idx r = 0)) as [H0|Hn0].
    + exists r. by apply Dictionary_normalized_slot0.
    + eexists. by rewrite Dictionary_normalized_other, Ht0.
Qed.

Lemma decoded_paradigm_never_fails_witness :
  ∃ nf, build_normal_form kniga_dict 0 1 [1080%N] = Ok nf.
Proof.
  destruct (decoded_paradigm_never_fails kniga_dict 0
              [([], NOUN_SG, [1072%N]); ([], NOUN_PL, [1080%N])] 1 eq_refl)
    as (_ & Hnf & _).
  - simpl. lia.
  - apply Hnf.
Defined.

(** ** Derivation chains that the analyzer cannot follow *)

Section ChainErrors.

Context {K : Type} `{Countable K}.
Implicit Types a : MorphAnalyzer (K:=K).

(** X13: the analyzer asks the object of the last derivation step, and
    the dictionary checks the first one. A record without derivation
    steps makes [MorphAnalyzer.get_lexeme], [Parse.inflect] and
    [Parse.normalized] raise [IndexError], though the dictionary itself
    accepts the empty chain; a record whose chain ends with the
    dictionary and starts with another object makes
    [MorphAnalyzer.get_lexeme] and [Parse.inflect] raise
    [AssertionError]. [Parse.inflect] raises these errors when the
    call that updates the grammemes has returned; when that call
    raises, its error comes first. *)
Theorem chain_dispatch_errors a r :
  (∀ G e, updated_grammemes (tag r) G = Raise e →
          Parse_inflect a r G = Raise e) ∧
  (methods r = [] →
   MorphAnalyzer_get_lexeme a r = Raise IndexError ∧
   (∀ G g, updated_grammemes (tag r) G = Ok g →
           Parse_inflect a r G = Raise IndexError) ∧
   Parse_normalized a r = Raise IndexError ∧
   Dictionary_get_lexeme (dictionary a) r (methods r)
   ≠ Raise AssertionError) ∧
  (∀ c0 w0 ms w1,
     methods r = (c0, w0) :: ms ++ [(Dict_obj (dict_id (dictionary a)), w1)] →
     c0 ≠ Dict_obj (dict_id (dictionary a)) →
     MorphAnalyzer_get_lexeme a r = Raise AssertionError ∧
     (∀ G g, updated_grammemes (tag r) G = Ok g →
             Parse_inflect a r G = Raise AssertionError)).
Proof.
  split; [intros G e; apply Parse_inflect_raises|]. split.
  - intros Hms.
    assert (Hlex : MorphAnalyzer_get_lexeme a r = Raise IndexError).
    { unfold MorphAnalyzer_get_lexeme. by rewrite Hms. }
    split_and!.
    + done.
    + intros G g Hg. by eapply Parse_inflect_lexeme_raises.
    + unfold Parse_normalized. by rewrite Hms.
    + rewrite Hms. apply only_IndexError_not_assert.
      unfold Dictionary_get_lexeme. simpl. destruct r.
      apply only_IndexError_bind; [auto with index_error|].
      intros paradigm. auto 8 with index_error.
  - intros c0 w0 ms w1 Hms Hc0.
    assert (Hlex : MorphAnalyzer_get_lexeme a r = Raise AssertionError).
    { unfold MorphAnalyzer_get_lexeme.
      rewrite Hms, app_comm_cons, py_index_last. simpl.
      rewrite bool_decide_eq_true_2 by done. simpl.
      unfold Dictionary_get_lexeme. simpl.
      by rewrite bool_decide_eq_false_2. }
    split; [done|].
    intros G g Hg. by eapply Parse_inflect_lexeme_raises.
Qed.

End ChainErrors.

Lemma chain_dispatch_errors_witness :
  Parse_normalized kniga_analyzer chainless_form = Raise IndexError ∧
  Parse_inflect kniga_analyzer chainless_form {["plur"]} = Raise IndexError ∧
  Parse_inflect kniga_analyzer chainless_form {["XXXX"]} = Raise ValueError ∧
  MorphAnalyzer_get_lexeme kniga_analyzer mixed_chain_form
  = Raise AssertionError ∧
  Parse_inflect kniga_analyzer mixed_chain_form {["plur"]}
  = Raise AssertionError.
Proof.
  destruct (chain_dispatch_errors kniga_analyzer chainless_form)
    as (Hfirst & Hempty & _).
  destruct (chain_dispatch_errors kniga_analyzer mixed_chain_form)
    as (_ & _ & Hmixed).
  destruct (Hempty eq_refl) as (_ & Hinflect & Hnorm & _).
  destruct (Hmixed (Unit_obj 7) kniga [] kniga eq_refl ltac:(discriminate))
    as [Hlex Hinflect'].
  split_and!.
  - exact Hnorm.
  - apply (Hinflect {["plur"]} {["NOUN"; "plur"]}). reflexivity.
  - apply Hfirst. reflexivity.
  - exact Hlex.
  - apply (Hinflect' {["plur"]} {["NOUN"; "plur"]}). reflexivity.
Defined.

(** ** The errors of the dictionary *)

Lemma only_IndexError_build_normal_form d pid i w :
  only_IndexError (build_normal_form d pid i w).
Proof.
  unfold build_normal_form. destruct (i =? 0); [auto with index_error|].
  apply only_IndexError_bind; [auto with index_error|].
  intros paradigm. auto 12 with index_error.
Qed.

#[local] Hint Resolve only_IndexError_build_normal_form : index_error.

Lemma only_IndexError_parse_values d fixed_word parses : ∀ res memo,
  only_IndexError (parse_values d fixed_word parses res memo).
Proof.
  induction parses as [|[pid i] parses IH]; intros res memo;
    cbn [parse_values]; [auto with index_error|].
  apply only_IndexError_bind.
  - destruct (memo !! pid); auto 6 with index_error.
  - intros [nf memo1]. auto 6 with index_error.
Qed.

Lemma only_IndexError_parse_items d para_data : ∀ res memo,
  only_IndexError (parse_items d para_data res memo).
Proof.
  induction para_data as [|[fixed_word parses] para_data IH]; intros res memo;
    cbn [parse_items]; [auto with index_error|].
  apply only_IndexError_bind; [apply only_IndexError_parse_values|].
  intros [res1 memo1]. apply IH.
Qed.

Lemma only_IndexError_tag_values d parse : ∀ tags,
  only_IndexError (tag_values d parse tags).
Proof.
  induction parse as [|[pid i] parse IH]; intros tags;
    cbn [tag_values]; auto 10 with index_error.
Qed.

Lemma only_IndexError_tag_items d para_data : ∀ tags,
  only_IndexError (tag_items d para_data tags).
Proof.
  induction para_data as [|parse para_data IH]; intros tags;
    cbn [tag_items]; [auto with index_error|].
  apply only_IndexError_bind; [apply only_IndexError_tag_values|].
  intros tags1. apply IH.
Qed.

(** X14: the lookups of the dictionary fail in one way only: [parse],
    [tag], [build_paradigm_info], [build_normal_form] and [normalized]
    raise nothing but [IndexError], and so does [get_lexeme] once its
    assertion holds. *)
Theorem dictionary_raises_only_IndexError d e :
  (∀ w, Dictionary_parse d w = Raise e → e = IndexError) ∧
  (∀ w, Dictionary_tag d w = Raise e → e = IndexError) ∧
  (∀ pid, build_paradigm_info d pid = Raise e → e = IndexError) ∧
  (∀ pid i w, build_normal_form d pid i w = Raise e → e = IndexError) ∧
  (∀ r, Dictionary_normalized d r = Raise e → e = IndexError) ∧
  (∀ r ms, first_is (Dict_obj (dict_id d)) ms = true →
           Dictionary_get_lexeme d r ms = Raise e → e = IndexError).
Proof.
  split_and!.
  - intros w. unfold Dictionary_parse.
    apply only_IndexError_bind; [apply only_IndexError_parse_items|].
    intros [res memo]. auto with index_error.
  - intros w. apply only_IndexError_tag_items.
  - intros pid. apply only_IndexError_build_paradigm_info.
  - intros pid i w. apply only_IndexError_build_normal_form.
  - intros r. destruct (decide (idx r = 0)) as [H0|Hn0].
    + by rewrite Dictionary_normalized_slot0.
    + rewrite Dictionary_normalized_other by done.
      apply only_IndexError_bind; [auto with index_error|].
      intros t. auto with index_error.
  - intros r ms Hfirst. unfold Dictionary_get_lexeme. rewrite Hfirst. simpl.
    destruct r. apply only_IndexError_bind; [auto with index_error|].
    intros paradigm. auto 8 with index_error.
Qed.

Lemma dictionary_raises_only_IndexError_witness :
  ∃ e, Dictionary_parse (mkDictionary 1 [book_paradigm] [] [[]]
                           [[1072%N]; [1080%N]] {[ kniga := [(0, 0)] ]})
         kniga = Raise e ∧
       e = IndexError.
Proof.
  exists IndexError. split; [reflexivity|].
  apply (proj1 (dictionary_raises_only_IndexError
                  (mkDictionary 1 [book_paradigm] [] [[]]
                     [[1072%N]; [1080%N]] {[ kniga := [(0, 0)] ]})
                  IndexError) kniga).
  reflexivity.
Defined.

(** ** Iteration over the known words *)

Lemma elem_of_iteritems words pre w pr :
  (w, pr) ∈ iteritems words pre ↔
  pre `prefix_of` w ∧ ∃ vals, words !! w = Some vals ∧ pr ∈ vals.
Proof.
  unfold iteritems. rewrite elem_of_lookup_pairs.
  setoid_rewrite merge_sort_Permutation.
  setoid_rewrite list_elem_of_filter.
  setoid_rewrite elem_of_map_to_list. simpl. split.
  - intros (vals & [Hpre Hvals] & Hpr). eauto.
  - intros (Hpre & vals & Hvals & Hpr). eauto.
Qed.

Lemma Dictionary_parse_memo_inv d w res :
  Dictionary_parse d w = Ok res → ∃ memo, memo_inv d res memo.
Proof.
  unfold Dictionary_parse. intros Hrun. bind_inv Hrun.
  destruct a as [res' memo]. injection Hrun as <-. exists memo.
  eapply parse_items_memo_inv; [apply memo_inv_nil|done].
Qed.

(** What the generator yields before it ends. *)
Lemma iter_parses_yields d items : ∀ ys e,
  iter_parses d items = (ys, e) →
  (locator <$> ys) `prefix_of` items ∧
  (e = None → locator <$> ys = items) ∧
  (∀ x, e = Some x → x = IndexError) ∧
  Forall (fun r =>
            build_tag_info d (para_id r) (idx r) = Ok (tag r) ∧
            build_normal_form d (para_id r) (idx r) (word r)
            = Ok (normal_form r) ∧
            estimate r = 1%Q ∧
            methods r = [(Dict_obj (dict_id d), word r)]) ys.
Proof.
  induction items as [|[w [pid i]] items IH]; intros ys e; cbn [iter_parses].
  - intros [= <- <-]. split_and!; [done..|constructor].
  - destruct (build_tag_info d pid i) as [t|x] eqn:Ht; simpl.
    + destruct (build_normal_form d pid i w) as [nf|x] eqn:Hnf; simpl.
      * destruct (iter_parses d items) as [rest e'] eqn:Hrest.
        intros [= <- <-].
        destruct (IH rest e' eq_refl) as (Hpre & Hall & Herr & Hrec).
        rewrite fmap_cons. split_and!.
        -- by apply prefix_cons.
        -- intros He. by rewrite Hall.
        -- done.
        -- by constructor.
      * intros [= <- <-]. split_and!; [apply prefix_nil|done| |constructor].
        intros x' [= <-]. by apply (only_IndexError_build_normal_form d pid i w).
    + intros [= <- <-]. split_and!; [apply prefix_nil|done| |constructor].
      intros x' [= <-]. by apply (only_IndexError_build_tag_info d pid i).
Qed.

Section IterKnownWordsProperties.

Context {K : Type} `{Countable K}.

(** X15: [iter_known_word_parses] yields one record for each stored
    [(word, (para_id, idx))] item under the prefix, in the order of the
    store, until a table lookup raises [IndexError], if one does. Every
    record yielded has a word that starts with the prefix and that the
    lexicon contains, the tag of its slot, the normal form built from
    its own word and slot, the estimate 1 and the dictionary as its only
    derivation step; the analyzer yields the same records in its result
    type. *)
Theorem iter_known_word_parses_yields (a : MorphAnalyzer (K:=K)) pre ys e :
  let d := dictionary a in
  Dictionary_iter_known_word_parses d pre = (ys, e) →
  MorphAnalyzer_iter_known_word_parses a pre = (map (wrap a) ys, e) ∧
  (locator <$> ys) `prefix_of` iteritems (words d) pre ∧
  (e = None → locator <$> ys = iteritems (words d) pre) ∧
  (∀ x, e = Some x → x = IndexError) ∧
  (∀ r, r ∈ ys →
        pre `prefix_of` word r ∧
        Parse_is_known d r = true ∧
        build_tag_info d (para_id r) (idx r) = Ok (tag r) ∧
        build_normal_form d (para_id r) (idx r) (word r)
        = Ok (normal_form r) ∧
        estimate r = 1%Q ∧
        methods r = [(Dict_obj (dict_id d), word r)]) ∧
  (e = None →
   ∀ w vals pr, words d !! w = Some vals → pr ∈ vals → pre `prefix_of` w →
                ∃ r, r ∈ ys ∧ locator r = (w, pr)).
Proof.
  intros d Hiter. unfold MorphAnalyzer_iter_known_word_parses.
  fold d. rewrite Hiter. unfold Dictionary_iter_known_word_parses in Hiter.
  apply iter_parses_yields in Hiter as (Hpre & Hall & Herr & Hrec).
  split_and!; try done.
  - intros r Hr.
    assert (Hin : locator r ∈ iteritems (words d) pre).
    { destruct Hpre as [rest ->]. apply elem_of_app. left.
      by apply list_elem_of_fmap_2. }
    apply elem_of_iteritems in Hin as (Hword & vals & Hvals & _).
    rewrite Forall_forall in Hrec.
    destruct (Hrec r Hr) as (Ht & Hnf & Hest & Hms).
    split_and!; try done.
    unfold Parse_is_known, Dictionary_word_is_known, contains.
    apply bool_decide_eq_true. by eexists.
  - intros He w vals pr Hvals Hpr Hw.
    assert (Hin : (w, pr) ∈ iteritems (words d) pre).
    { apply elem_of_iteritems. eauto. }
    rewrite <- (Hall He) in Hin.
    apply list_elem_of_fmap in Hin as (r & Hloc & Hr). by exists r.
Qed.

End IterKnownWordsProperties.

Lemma iter_known_word_parses_yields_witness :
  MorphAnalyzer_iter_known_word_parses two_words_analyzer [1082%N]
  = ([ParseObj kniga_form; ParseObj knigi_form], None) ∧
  ∃ r, r ∈ [kniga_form; knigi_form] ∧ locator r = (knigi, (0, 1)).
Proof.
  destruct (iter_known_word_parses_yields two_words_analyzer [1082%N]
              [kniga_form; knigi_form] None eq_refl)
    as (Hmorph & _ & _ & _ & _ & Hall).
  split; [exact Hmorph|].
  apply (Hall eq_refl knigi [(0, 1)]).
  - reflexivity.
  - apply list_elem_of_here.
  - by exists [1085; 1080; 1075; 1080]%N.
Defined.

(** X16: a record that [iter_known_word_parses] yields is the record
    that [Dictionary.parse] makes of the same word, paradigm and slot,
    when that record is the first of its paradigm in the parse. *)
Theorem iter_agrees_with_parse d pre ys e r res k r' :
  Dictionary_iter_known_word_parses d pre = (ys, e) →
  r ∈ ys →
  Dictionary_parse d (word r) = Ok res →
  res !! k = Some r' →
  locator r' = locator r →
  (∀ j r0, (j < k)%nat → res !! j = Some r0 → para_id r0 ≠ para_id r') →
  r' = r.
Proof.
  unfold Dictionary_iter_known_word_parses.
  intros (_ & _ & _ & Hrec)%iter_parses_yields Hr Hparse Hk Hloc Hfirst.
  rewrite Forall_forall in Hrec.
  destruct (Hrec r Hr) as (Ht & Hnf & Hest & Hms).
  destruct (Dictionary_parse_inv _ _ _ Hparse) as [memo Hinv].
  destruct (Hinv r' (list_elem_of_lookup_2 _ _ _ Hk))
    as (_ & Hest' & Hms' & Ht').
  destruct (Dictionary_parse_memo_inv _ _ _ Hparse) as [memo' [_ Hbuilt]].
  pose proof (Hbuilt k r' Hk Hfirst) as Hnf'.
  unfold locator in Hloc. injection Hloc as Hw Hp Hi.
  rewrite Hw, Hp, Hi in *.
  destruct r, r'; simpl in *. subst. f_equal; congruence.
Qed.

Lemma iter_agrees_with_parse_witness :
  Dictionary_parse two_words_dict knigi = Ok [knigi_form] ∧
  knigi_form = knigi_form.
Proof.
  split; [reflexivity|].
  apply (iter_agrees_with_parse two_words_dict [] [kniga_form; knigi_form]
           None knigi_form [knigi_form] 0%nat knigi_form).
  - reflexivity.
  - apply list_elem_of_further, list_elem_of_here.
  - reflexivity.
  - reflexivity.
  - reflexivity.
  - intros j r0 Hj. lia.
Defined.

(** ** Words that the lexicon contains *)

Lemma variant_of_refl repl w : variant_of repl w w.
Proof. unfold variant_of. apply Forall2_same_length_lookup_2; [done|].
  intros i c c' Hc Hc'. left. congruence.
Qed.

(** X17: a word that is known with [strict_ee] is known without it, and
    when [Dictionary.parse] returns for a word that the lexicon contains
    as it is, every pair attached to the word has its record with that
    word. *)
Theorem known_word_is_parsed d w :
  (Dictionary_word_is_known d w true = true →
   Dictionary_word_is_known d w false = true) ∧
  (∀ vals pr res,
     words d !! w = Some vals → pr ∈ vals →
     Dictionary_parse d w = Ok res →
     ∃ r, r ∈ res ∧ locator r = (w, pr)).
Proof.
  split.
  - unfold Dictionary_word_is_known, contains.
    intros Hin%bool_decide_eq_true. apply truthy_elem_of. exists w.
    apply elem_of_similar_keys. split; [apply variant_of_refl|done].
  - intros vals pr res Hvals Hpr [Hloc _]%Dictionary_parse_appends.
    assert (Hin : (w, pr) ∈ lookup_pairs (similar_items (words d) w (ee d))).
    { apply elem_of_lookup_pairs. exists vals. split; [|done].
      apply elem_of_similar_items. split; [apply variant_of_refl|done]. }
    rewrite <- Hloc in Hin.
    apply list_elem_of_fmap in Hin as (r & Hr & Hin). by exists r.
Qed.

Lemma known_word_is_parsed_witness :
  Dictionary_word_is_known knigi3_dict knigi false = true ∧
  ∃ r, r ∈ [knigi_gen; knigi_plur] ∧ locator r = (knigi, (0, 2)).
Proof.
  destruct (known_word_is_parsed knigi3_dict knigi) as [Hloose Hrec].
  split; [apply Hloose; reflexivity|].
  apply (Hrec [(0, 1); (0, 2)]).
  - reflexivity.
  - apply list_elem_of_further, list_elem_of_here.
  - reflexivity.
Defined.
